(** * Sync buffer and delivery resilience of the Aldelo Windows agent

    A shallow embedding of [smart_agent.py] (classes [SyncBuffer] and
    [SmartAgent]) together with the shape of the extraction result built by
    [tools/access_db.py], and the properties of the durable queue, the chunker,
    the delivery engine and the sync coordinator. *)

From Stdlib Require Import ZArith Lia Ascii.
From Stdlib Require DecimalZ DecimalPos DecimalFacts.
From stdpp Require Import base option list gmap strings sorting pretty.

Set Warnings "-register-all".

Local Open Scope Z_scope.

(** ** Python builtins used by the agent *)

Module Py.

(** [range(start, stop, step)]: [None] stands for the [ValueError] raised
    when [step] is zero. *)
Definition range_len (start stop step : Z) : Z :=
  if 0 <? step then
    (if start <? stop then (stop - start - 1) / step + 1 else 0)
  else
    (if stop <? start then (start - stop - 1) / (- step) + 1 else 0).

Definition range (start stop step : Z) : option (list Z) :=
  if step =? 0 then None
  else Some (map (λ k : nat, start + Z.of_nat k * step)
                 (seq 0 (Z.to_nat (range_len start stop step)))).

(** Normalisation of one bound of a slice [l[i:j]] on a list of length [n]:
    negative bounds count from the end, and both are clamped to [0..n]. *)
Definition slice_bound (n i : Z) : Z :=
  if i <? 0 then Z.max 0 (i + n) else Z.min i n.

Definition slice {A} (l : list A) (i j : Z) : list A :=
  let n := Z.of_nat (length l) in
  let lo := slice_bound n i in
  let hi := slice_bound n j in
  take (Z.to_nat (hi - lo)) (drop (Z.to_nat lo) l).

Definition len {A} (l : list A) : Z := Z.of_nat (length l).

(** Truthiness of an optional string argument ([if sync_id:]). *)
Definition truthy (s : option string) : bool :=
  match s with
  | None => false
  | Some s => negb (String.eqb s "")
  end.

(** [text[:n]] on a string. *)
Fixpoint str_prefix (n : nat) (s : string) : string :=
  match n, s with
  | O, _ => EmptyString
  | S n, EmptyString => EmptyString
  | S n, String c s => String c (str_prefix n s)
  end.

End Py.

(** ** Exceptions that can escape the modelled code *)

Inductive Exn :=
  | IntegrityError (constraint : string)
  | ValueError (msg : string)
  | OverflowError (msg : string)
  | UnboundLocalError (var : string)
  | JSONDecodeError.

(** ** The chunker, [SmartAgent._chunk_data] *)

Section Chunker.
Context {record : Type}.

(** An extraction result is a Python dict from the name of a collection to the
    list of its records: a [gmap string (list record)]. *)

(** [data.get(key, [])] *)
Definition dict_get (data : gmap string (list record)) (key : string) : list record :=
  default [] (data !! key).

(** [sum(len(v) for v in data.values())] *)
Definition total_records (data : gmap string (list record)) : Z :=
  map_fold (λ _ v acc, Py.len v + acc) 0 data.

(** The list built by one [for i in range(0, len(coll), chunk_size)] loop:
    [mk] places the slice under its key, the other two keys being empty. *)
Definition chunk_collection (mk : list record → gmap string (list record))
    (coll : list record) (chunk_size : Z)
    : option (list (gmap string (list record) * Z)) :=
  match Py.range 0 (Py.len coll) chunk_size with
  | Some starts =>
      Some (map (λ i, let part := Py.slice coll i (i + chunk_size) in
                      (mk part, Py.len part)) starts)
  | None => None
  end.

Definition only_orderheaders (part : list record) : gmap string (list record) :=
  {[ "orderheaders" := part; "orderpayments" := []; "accountinvoiceerp" := [] ]}.
Definition only_orderpayments (part : list record) : gmap string (list record) :=
  {[ "orderheaders" := []; "orderpayments" := part; "accountinvoiceerp" := [] ]}.
Definition only_invoices (part : list record) : gmap string (list record) :=
  {[ "orderheaders" := []; "orderpayments" := []; "accountinvoiceerp" := part ]}.

Definition _chunk_data (data : gmap string (list record)) (chunk_size : Z)
    : Exn + list (gmap string (list record) * Z) :=
  let orderheaders := dict_get data "orderheaders" in
  let orderpayments := dict_get data "orderpayments" in
  let invoices := dict_get data "accountinvoiceerp" in
  let total := Py.len orderheaders + Py.len orderpayments + Py.len invoices in
  if total <=? chunk_size then inr [(data, total)]
  else
    match chunk_collection only_orderheaders orderheaders chunk_size,
          chunk_collection only_orderpayments orderpayments chunk_size,
          chunk_collection only_invoices invoices chunk_size with
    | Some c1, Some c2, Some c3 => inr (c1 ++ c2 ++ c3)
    | _, _, _ => inl (ValueError "range() arg 3 must not be zero")
    end.

(** What a receiver obtains for collection [key] by concatenating, in
    emission order, the slices that the chunks carry under that key. *)
Definition reassemble (key : string)
    (chunks : list (gmap string (list record) * Z)) : list record :=
  concat (map (λ c, dict_get c.1 key) chunks).

End Chunker.

(** The dict returned by [extract_all_data] in [tools/access_db.py]. *)
Definition extract_all_data_result {record}
    (orderheaders orderpayments account_invoice_erp orderdetails : list record)
    : gmap string (list record) :=
  {[ "orderheaders" := orderheaders;
     "orderpayments" := orderpayments;
     "account_invoice_erp" := account_invoice_erp;
     "orderdetails" := orderdetails ]}.

(** ** The local buffer database, class [SyncBuffer]

    The three tables created by [_init_db].  A table is the list of its rows in
    rowid order; [TEXT] columns are strings, [INTEGER] columns are integers,
    a nullable column is an [option].  The [REAL] column [duration_seconds]
    holds a difference of two clock readings, kept here as an integer number
    of clock units. *)

Record PendingRow := {
  ps_id : string;
  ps_store_id : string;
  ps_payload : string;
  ps_record_count : Z;
  ps_created_at : string;
  ps_retry_count : Z;
  ps_last_error : option string;
  ps_status : string
}.

Record HistoryRow := {
  sh_id : string;
  sh_store_id : string;
  sh_record_count : Z;
  sh_synced_at : string;
  sh_duration_seconds : Z;
  sh_status : option string;
  sh_error_message : option string
}.

Record StatusRow := {
  as_key : string;
  as_value : option string;
  as_updated_at : option string
}.

Record SyncBuffer := {
  pending_sync : list PendingRow;
  sync_history : list HistoryRow;
  agent_status : list StatusRow
}.

(** The dict that [get_pending] builds for one row. *)
Record Batch (P : Type) := {
  b_id : string;
  b_store_id : string;
  b_payload : P;
  b_record_count : Z;
  b_retry_count : Z
}.
Arguments b_id {P} _.
Arguments b_store_id {P} _.
Arguments b_payload {P} _.
Arguments b_record_count {P} _.
Arguments b_retry_count {P} _.

(** [json.dumps] and [json.loads] of the standard library, on payloads of
    type [P]; [json_loads] is [None] where [json.loads] raises. *)
Class JsonCodec (P : Type) := {
  json_dumps : P → string;
  json_loads : string → option P
}.

Module Sql.

(** [LIMIT n]: a negative [n] means no upper bound in SQLite. *)
Definition limit {A} (n : Z) (rows : list A) : list A :=
  if n <? 0 then rows else take (Z.to_nat n) rows.

(** [ORDER BY created_at ASC] with the default [BINARY] collation: rows are
    inserted one by one into the sorted output, a row going after the rows
    whose key is not greater, so rows with equal keys keep their rowid
    order. *)
Fixpoint insert_by_created_at (r : PendingRow) (sorted : list PendingRow)
    : list PendingRow :=
  match sorted with
  | [] => [r]
  | x :: rest =>
      if String.ltb (ps_created_at r) (ps_created_at x)
      then r :: x :: rest
      else x :: insert_by_created_at r rest
  end.

Definition order_by_created_at (rows : list PendingRow) : list PendingRow :=
  foldr insert_by_created_at [] (reverse rows).

(** [WHERE status = 'pending'] *)
Definition is_pending (r : PendingRow) : bool :=
  String.eqb (ps_status r) "pending".

(** [WHERE id = ?] *)
Definition has_id (sync_id : string) (r : PendingRow) : bool :=
  String.eqb (ps_id r) sync_id.

End Sql.

(** [add_pending]: [sync_id] is the value of [str(uuid.uuid4())] and [now] the
    value of [datetime.now().isoformat()] read by the call.  The columns that
    the [INSERT] leaves out take their defaults.  A row with the same primary
    key makes the [INSERT] raise, and nothing is committed. *)
Definition add_pending {P} `{JsonCodec P} (buf : SyncBuffer)
    (sync_id now : string) (store_id : string) (payload : P) (record_count : Z)
    : Exn + (string * SyncBuffer) :=
  if existsb (Sql.has_id sync_id) (pending_sync buf)
  then inl (IntegrityError "UNIQUE constraint failed: pending_sync.id")
  else
    let row := {| ps_id := sync_id;
                  ps_store_id := store_id;
                  ps_payload := json_dumps payload;
                  ps_record_count := record_count;
                  ps_created_at := now;
                  ps_retry_count := 0;
                  ps_last_error := None;
                  ps_status := "pending" |} in
    inr (sync_id, {| pending_sync := pending_sync buf ++ [row];
                     sync_history := sync_history buf;
                     agent_status := agent_status buf |}).

(** The rows selected by the query of [get_pending]. *)
Definition get_pending_rows (buf : SyncBuffer) (limit : Z) : list PendingRow :=
  Sql.limit limit
    (Sql.order_by_created_at (filter (λ r, Sql.is_pending r = true) (pending_sync buf))).

(** The dict built from one selected row; [json.loads] may raise. *)
Definition batch_of_row {P} `{JsonCodec P} (r : PendingRow) : option (Batch P) :=
  match json_loads (ps_payload r) with
  | Some payload =>
      Some {| b_id := ps_id r;
              b_store_id := ps_store_id r;
              b_payload := payload;
              b_record_count := ps_record_count r;
              b_retry_count := ps_retry_count r |}
  | None => None
  end.

Definition get_pending {P} `{JsonCodec P} (buf : SyncBuffer) (limit : Z)
    : Exn + list (Batch P) :=
  match mapM batch_of_row (get_pending_rows buf limit) with
  | Some batches => inr batches
  | None => inl JSONDecodeError
  end.

(** The row fetched by [SELECT store_id, record_count FROM pending_sync WHERE id = ?]. *)
Definition fetch_pending (buf : SyncBuffer) (sync_id : string) : option PendingRow :=
  List.find (Sql.has_id sync_id) (pending_sync buf).

(** [mark_synced]: [now] is the clock reading used for [synced_at].  When the
    history already holds the id, the [INSERT] raises before the commit and
    the tables stay as they were. *)
Definition mark_synced (buf : SyncBuffer) (sync_id now : string) (duration : Z)
    : Exn + SyncBuffer :=
  match fetch_pending buf sync_id with
  | Some row =>
      if existsb (λ h, String.eqb (sh_id h) sync_id) (sync_history buf)
      then inl (IntegrityError "UNIQUE constraint failed: sync_history.id")
      else
        let entry := {| sh_id := sync_id;
                        sh_store_id := ps_store_id row;
                        sh_record_count := ps_record_count row;
                        sh_synced_at := now;
                        sh_duration_seconds := duration;
                        sh_status := Some "success";
                        sh_error_message := None |} in
        inr {| pending_sync :=
                 filter (λ r, Sql.has_id sync_id r = false) (pending_sync buf);
               sync_history := sync_history buf ++ [entry];
               agent_status := agent_status buf |}
  | None => inr buf
  end.

(** The [UPDATE] of [mark_failed] on one row. *)
Definition bump_retry (sync_id error : string) (r : PendingRow) : PendingRow :=
  if Sql.has_id sync_id r
  then {| ps_id := ps_id r;
          ps_store_id := ps_store_id r;
          ps_payload := ps_payload r;
          ps_record_count := ps_record_count r;
          ps_created_at := ps_created_at r;
          ps_retry_count := ps_retry_count r + 1;
          ps_last_error := Some error;
          ps_status := ps_status r |}
  else r.

Definition mark_failed (buf : SyncBuffer) (sync_id error : string) : SyncBuffer :=
  {| pending_sync := map (bump_retry sync_id error) (pending_sync buf);
     sync_history := sync_history buf;
     agent_status := agent_status buf |}.

(** ** The agent's surroundings *)

Definition AGENT_VERSION : string := "2.0.0".

(** The keys of [config.json] read by the modelled code; a key that is absent
    is [None] and takes the default given at its use. *)
Record Config := {
  central_server_url : option string;
  retry_attempts : option Z;
  retry_delay_seconds : option Z;
  store_id : option string
}.

Record ChunkInfo := {
  chunk_number : Z;
  total_chunks : Z;
  chunk_records : Z
}.

(** The delivery payload built by [run_extraction_job]. *)
Record Payload (record : Type) := {
  pl_store_id : option string;
  pl_data : gmap string (list record);
  pl_extraction_time : string;
  pl_agent_version : string;
  pl_chunk_info : option ChunkInfo
}.
Arguments pl_store_id {record} _.
Arguments pl_data {record} _.
Arguments pl_extraction_time {record} _.
Arguments pl_agent_version {record} _.
Arguments pl_chunk_info {record} _.

(** What one [requests.post] call does: it returns a response, or raises a
    [requests.exceptions.RequestException] (connection error, timeout, ...). *)
Inductive Outcome :=
  | Response (status_code : Z) (text : string)
  | RequestException (msg : string).

(** One reading of the clock, in the three forms the code asks for. *)
Record Instant := {
  isoformat : string;
  strftime : string;
  time_time : Z
}.

(** What [extract_data] meets: no database path, an exception of
    [extract_all_data], or its return value ([None] on a connection error). *)
Inductive Extraction (record : Type) :=
  | DbPathNotFound
  | ExtractionRaised
  | Extracted (data : option (gmap string (list record))).
Arguments DbPathNotFound {record}.
Arguments ExtractionRaised {record}.
Arguments Extracted {record} _.

(** The outside world as the agent sees it: the result of the [n]-th call of
    each external operation, and the longest pause, in seconds, that
    [time.sleep] of the platform accepts (9223372036 where the clock type is
    a 64-bit count of nanoseconds). *)
Record Env (record : Type) := {
  requests_post : nat → Outcome;
  datetime_now : nat → Instant;
  uuid4 : nat → string;
  extract_all_data : nat → Extraction record;
  sleep_max : Z
}.
Arguments requests_post {record} _ _.
Arguments datetime_now {record} _ _.
Arguments uuid4 {record} _ _.
Arguments extract_all_data {record} _ _.
Arguments sleep_max {record} _.

(** The effects of the agent that can be observed from outside. *)
Inductive Event (record : Type) :=
  | EvPost (url : option string) (payload : Payload record)
  | EvSleep (seconds : Z)
  | EvExtract.
Arguments EvPost {record} _ _.
Arguments EvSleep {record} _.
Arguments EvExtract {record}.

(** The state of a [SmartAgent]: its buffer database, its attributes, the
    number of calls made so far of each external operation, and the trace of
    events, oldest first. *)
Record World (record : Type) := {
  buffer : SyncBuffer;
  last_sync : option string;
  sync_errors : Z;
  posts : nat;
  clock_reads : nat;
  uuids : nat;
  extractions : nat;
  trace : list (Event record)
}.
Arguments buffer {record} _.
Arguments last_sync {record} _.
Arguments sync_errors {record} _.
Arguments posts {record} _.
Arguments clock_reads {record} _.
Arguments uuids {record} _.
Arguments extractions {record} _.
Arguments trace {record} _.

(** A computation returns a value or raises, and leaves a state either way. *)
Inductive Res (record A : Type) :=
  | Ok (a : A) (w : World record)
  | Raised (e : Exn) (w : World record).
Arguments Ok {record A} _ _.
Arguments Raised {record A} _ _.

Definition M (record A : Type) : Type := World record → Res record A.

Definition ret {record A} (a : A) : M record A := λ w, Ok a w.

Definition bind {record A B} (c : M record A) (k : A → M record B) : M record B :=
  λ w, match c w with
       | Ok a w' => k a w'
       | Raised e w' => Raised e w'
       end.

Definition raise {record A} (e : Exn) : M record A := λ w, Raised e w.

Declare Scope agent_scope.
Delimit Scope agent_scope with agent.
Notation "'let!' x ':=' c 'in' k" := (bind c (λ x, k))
  (at level 10, x pattern, c at level 100, k at level 200) : agent_scope.
Notation "c1 ';;' c2" := (bind c1 (λ _, c2))
  (at level 100, c2 at level 200, right associativity) : agent_scope.

Section World_updates.
Context {record : Type}.

Definition with_buffer (b : SyncBuffer) (w : World record) : World record :=
  {| buffer := b; last_sync := last_sync w; sync_errors := sync_errors w;
     posts := posts w; clock_reads := clock_reads w; uuids := uuids w;
     extractions := extractions w; trace := trace w |}.

Definition with_last_sync (s : option string) (w : World record) : World record :=
  {| buffer := buffer w; last_sync := s; sync_errors := sync_errors w;
     posts := posts w; clock_reads := clock_reads w; uuids := uuids w;
     extractions := extractions w; trace := trace w |}.

Definition with_sync_errors (n : Z) (w : World record) : World record :=
  {| buffer := buffer w; last_sync := last_sync w; sync_errors := n;
     posts := posts w; clock_reads := clock_reads w; uuids := uuids w;
     extractions := extractions w; trace := trace w |}.

Definition posted (url : option string) (payload : Payload record)
    (w : World record) : World record :=
  {| buffer := buffer w; last_sync := last_sync w; sync_errors := sync_errors w;
     posts := S (posts w); clock_reads := clock_reads w; uuids := uuids w;
     extractions := extractions w;
     trace := trace w ++ [EvPost url payload] |}.

Definition slept (seconds : Z) (w : World record) : World record :=
  {| buffer := buffer w; last_sync := last_sync w; sync_errors := sync_errors w;
     posts := posts w; clock_reads := clock_reads w; uuids := uuids w;
     extractions := extractions w;
     trace := trace w ++ [EvSleep seconds] |}.

Definition clock_read (w : World record) : World record :=
  {| buffer := buffer w; last_sync := last_sync w; sync_errors := sync_errors w;
     posts := posts w; clock_reads := S (clock_reads w); uuids := uuids w;
     extractions := extractions w; trace := trace w |}.

Definition uuid_drawn (w : World record) : World record :=
  {| buffer := buffer w; last_sync := last_sync w; sync_errors := sync_errors w;
     posts := posts w; clock_reads := clock_reads w; uuids := S (uuids w);
     extractions := extractions w; trace := trace w |}.

Definition extracted (w : World record) : World record :=
  {| buffer := buffer w; last_sync := last_sync w; sync_errors := sync_errors w;
     posts := posts w; clock_reads := clock_reads w; uuids := uuids w;
     extractions := S (extractions w);
     trace := trace w ++ [EvExtract] |}.

End World_updates.

(** ** The agent, class [SmartAgent] *)

Section Agent.
Context {record : Type} `{JsonCodec (Payload record)}.
Variable cfg : Config.
Variable env : Env record.

Local Open Scope agent_scope.

(** *** External operations *)

Definition post (url : option string) (payload : Payload record)
    : M record Outcome :=
  λ w, Ok (requests_post env (posts w)) (posted url payload w).

(** [time.sleep(seconds)] raises [ValueError] for a negative length and
    [OverflowError] for one that the clock type does not hold; the configured
    delay is taken as a whole number of seconds. *)
Definition sleep (seconds : Z) : M record unit :=
  λ w, if seconds <? 0
       then Raised (ValueError "sleep length must be non-negative") w
       else if sleep_max env <? seconds
       then Raised (OverflowError "timestamp too large to convert to C _PyTime_t") w
       else Ok tt (slept seconds w).

Definition now : M record Instant :=
  λ w, Ok (datetime_now env (clock_reads w)) (clock_read w).

Definition new_uuid : M record string :=
  λ w, Ok (uuid4 env (uuids w)) (uuid_drawn w).

(** *** The buffer as the agent calls it *)

Definition buffer_add_pending (store : option string)
    (payload : Payload record) (record_count : Z) : M record string :=
  let! sync_id := new_uuid in
  let! t := now in
  match store with
  | None => raise (IntegrityError "NOT NULL constraint failed: pending_sync.store_id")
  | Some store =>
      λ w, match add_pending (buffer w) sync_id (isoformat t) store payload record_count with
           | inr (sync_id, b) => Ok sync_id (with_buffer b w)
           | inl e => Raised e w
           end
  end.

Definition buffer_get_pending (limit : Z) : M record (list (Batch (Payload record))) :=
  λ w, match get_pending (buffer w) limit with
       | inr batches => Ok batches w
       | inl e => Raised e w
       end.

(** The clock is read only when the row exists. *)
Definition buffer_mark_synced (sync_id : string) (duration : Z) : M record unit :=
  λ w, match fetch_pending (buffer w) sync_id with
       | Some _ =>
           (let! t := now in
            λ w, match mark_synced (buffer w) sync_id (isoformat t) duration with
                 | inr b => Ok tt (with_buffer b w)
                 | inl e => Raised e w
                 end) w
       | None => Ok tt w
       end.

Definition buffer_mark_failed (sync_id error : string) : M record unit :=
  λ w, Ok tt (with_buffer (mark_failed (buffer w) sync_id error) w).

(** *** [push_to_api] *)

(** How the [for] loop of [push_to_api] ends: by the [return True] inside
    it, or by running out of attempts, with the variable [error_msg] as the
    last iteration left it ([None]: never assigned). *)
Inductive LoopEnd :=
  | Returned (result : bool)
  | Exhausted (error_msg : option string).

Definition http_error_msg (status_code : Z) (text : string) : string :=
  "HTTP " +:+ pretty status_code +:+ ": " +:+ Py.str_prefix 200 text.

(** The body of the [try] of one attempt: [inl] is the value returned from
    inside the loop, [inr] the error message assigned by the attempt. *)
Definition attempt_once (api_url : option string) (payload : Payload record)
    (sync_id : option string) (start_time : Z) : M record (bool + string) :=
  let! response := post api_url payload in
  match response with
  | Response status_code text =>
      if status_code =? 200 then
        let! t := now in
        let duration := time_time t - start_time in
        (if Py.truthy sync_id
         then buffer_mark_synced (default "" sync_id) duration
         else ret tt) ;;
        let! t' := now in
        (λ w, Ok tt (with_sync_errors 0 (with_last_sync (Some (isoformat t')) w))) ;;
        ret (inl true)
      else ret (inr (http_error_msg status_code text))
  | RequestException msg => ret (inr msg)
  end.

Fixpoint push_attempts (api_url : option string) (payload : Payload record)
    (sync_id : option string) (start_time max_retries base_delay : Z)
    (attempts : list Z) (error_msg : option string) : M record LoopEnd :=
  match attempts with
  | [] => ret (Exhausted error_msg)
  | attempt :: rest =>
      let delay := base_delay * 2 ^ (attempt - 1) in
      let! r := attempt_once api_url payload sync_id start_time in
      match r with
      | inl result => ret (Returned result)
      | inr msg =>
          (if attempt <? max_retries then sleep delay else ret tt) ;;
          push_attempts api_url payload sync_id start_time max_retries
            base_delay rest (Some msg)
      end
  end.

Definition push_to_api (payload : Payload record) (sync_id : option string)
    : M record bool :=
  let api_url := central_server_url cfg in
  let max_retries := default 5 (retry_attempts cfg) in
  let base_delay := default 30 (retry_delay_seconds cfg) in
  let! t := now in
  let start_time := time_time t in
  let! e := push_attempts api_url payload sync_id start_time max_retries
              base_delay (default [] (Py.range 1 (max_retries + 1) 1)) None in
  match e with
  | Returned result => ret result
  | Exhausted error_msg =>
      (λ w, Ok tt (with_sync_errors (sync_errors w + 1) w)) ;;
      (if Py.truthy sync_id then
         match error_msg with
         | Some msg => buffer_mark_failed (default "" sync_id) msg
         | None => raise (UnboundLocalError "error_msg")
         end
       else ret tt) ;;
      ret false
  end.

(** *** [sync_pending] *)

Fixpoint sync_pending_loop (pending : list (Batch (Payload record)))
    : M record unit :=
  match pending with
  | [] => ret tt
  | item :: rest =>
      if 10 <=? b_retry_count item then sync_pending_loop rest
      else
        let! success := push_to_api (b_payload item) (Some (b_id item)) in
        if success then sync_pending_loop rest else ret tt
  end.

Definition sync_pending : M record unit :=
  let! pending := buffer_get_pending 5 in
  match pending with
  | [] => ret tt
  | _ => sync_pending_loop pending
  end.

(** *** [extract_data] *)

Definition extract_data : M record (option (gmap string (list record)) * Z) :=
  λ w,
    let result :=
      match extract_all_data env (extractions w) with
      | DbPathNotFound => (None, 0)
      | ExtractionRaised => (None, 0)
      | Extracted None => (None, 0)
      | Extracted (Some data) =>
          if bool_decide (size data = 0%nat) then (None, 0)
          else (Some data, total_records data)
      end in
    Ok result (extracted w).

(** *** [run_extraction_job] *)

(** The loop over [enumerate(chunks)]; it returns the two counters that the
    job logs at its end. *)
Fixpoint deliver_chunks (n_chunks : Z)
    (chunks : list (nat * (gmap string (list record) * Z)))
    (success_count failed_count : Z) : M record (Z * Z) :=
  match chunks with
  | [] => ret (success_count, failed_count)
  | (idx, (chunk_data, chunk_count)) :: rest =>
      let! t := now in
      let payload := {| pl_store_id := store_id cfg;
                        pl_data := chunk_data;
                        pl_extraction_time := strftime t;
                        pl_agent_version := AGENT_VERSION;
                        pl_chunk_info :=
                          Some {| chunk_number := Z.of_nat idx + 1;
                                  total_chunks := n_chunks;
                                  chunk_records := chunk_count |} |} in
      let! success := push_to_api payload None in
      if success then
        deliver_chunks n_chunks rest (success_count + chunk_count) failed_count
      else
        buffer_add_pending (store_id cfg) payload chunk_count ;;
        deliver_chunks n_chunks rest success_count (failed_count + chunk_count)
  end.

Definition enumerate {A} (l : list A) : list (nat * A) :=
  zip (seq 0 (length l)) l.

Definition run_extraction_job : M record unit :=
  sync_pending ;;
  let! (data, record_count) := extract_data in
  match data with
  | None => ret tt
  | Some data =>
      if record_count =? 0 then ret tt
      else
        match _chunk_data data 5000 with
        | inl e => raise e
        | inr chunks =>
            deliver_chunks (Py.len chunks) (enumerate chunks) 0 0 ;;
            ret tt
        end
  end.

End Agent.


(** ** [json.dumps] and [json.loads] on the values the buffer stores

    Python values are trees: [None], booleans, integers, strings, lists,
    tuples and dicts whose keys are strings or integers, in insertion order.
    Strings are taken over the code points below 256, one per character.
    Floats are outside this model: a text that holds one is not read.  So is
    the depth of nesting at which the interpreter gives up. *)

Module Json.

Inductive PyKey :=
  | KStr (s : string)
  | KInt (n : Z).

Inductive PyVal :=
  | VNone
  | VBool (b : bool)
  | VInt (n : Z)
  | VStr (s : string)
  | VList (items : list PyVal)
  | VTuple (items : list PyVal)
  | VDict (items : list (PyKey * PyVal)).

Definition quote : ascii := "034"%char.
Definition backslash : ascii := "092"%char.

Definition chars (s : string) : list ascii := String.list_ascii_of_string s.

(** *** Writing *)

(** The decimal digits of a number, most significant first. *)
Fixpoint uint_chars (d : Decimal.uint) : list ascii :=
  match d with
  | Decimal.Nil => []
  | Decimal.D0 d => "0"%char :: uint_chars d
  | Decimal.D1 d => "1"%char :: uint_chars d
  | Decimal.D2 d => "2"%char :: uint_chars d
  | Decimal.D3 d => "3"%char :: uint_chars d
  | Decimal.D4 d => "4"%char :: uint_chars d
  | Decimal.D5 d => "5"%char :: uint_chars d
  | Decimal.D6 d => "6"%char :: uint_chars d
  | Decimal.D7 d => "7"%char :: uint_chars d
  | Decimal.D8 d => "8"%char :: uint_chars d
  | Decimal.D9 d => "9"%char :: uint_chars d
  end.

(** [int.__repr__] *)
Definition int_chars (n : Z) : list ascii :=
  match Z.to_int n with
  | Decimal.Pos d => uint_chars d
  | Decimal.Neg d => "-"%char :: uint_chars d
  end.

Definition hex_digit (n : N) : ascii :=
  ascii_of_N (if (n <? 10)%N then 48 + n else 87 + n)%N.

(** One character of a string as [json.dumps] writes it with
    [ensure_ascii=True]: the two characters that must be escaped, the short
    escapes, and [\u00xx] for every other character outside the range from
    the space to the tilde. *)
Definition escape_char (c : ascii) : list ascii :=
  let n := N_of_ascii c in
  if (n =? 34)%N then [backslash; quote]
  else if (n =? 92)%N then [backslash; backslash]
  else if (n =? 10)%N then [backslash; "n"%char]
  else if (n =? 13)%N then [backslash; "r"%char]
  else if (n =? 9)%N then [backslash; "t"%char]
  else if (n =? 8)%N then [backslash; "b"%char]
  else if (n =? 12)%N then [backslash; "f"%char]
  else if ((n <? 32) || (126 <? n))%N
  then [backslash; "u"%char; "0"%char; "0"%char;
        hex_digit (n / 16)%N; hex_digit (n mod 16)%N]
  else [c].

Definition string_chars (s : string) : list ascii :=
  quote :: flat_map escape_char (chars s) ++ [quote].

(** A key that is not a string is written as the string of its value. *)
Definition key_chars (k : PyKey) : list ascii :=
  match k with
  | KStr s => string_chars s
  | KInt n => quote :: int_chars n ++ [quote]
  end.

(** The items of a list or dict, separated by a comma and a space. *)
Fixpoint join (parts : list (list ascii)) : list ascii :=
  match parts with
  | [] => []
  | [part] => part
  | part :: more => part ++ chars ", " ++ join more
  end.

Fixpoint encode (v : PyVal) : list ascii :=
  match v with
  | VNone => chars "null"
  | VBool true => chars "true"
  | VBool false => chars "false"
  | VInt n => int_chars n
  | VStr s => string_chars s
  | VList items => "["%char :: join (map encode items) ++ ["]"%char]
  | VTuple items => "["%char :: join (map encode items) ++ ["]"%char]
  | VDict items =>
      "{"%char ::
      join (map (λ kv, match kv with
                       | (k, v) => key_chars k ++ chars ": " ++ encode v
                       end) items) ++ ["}"%char]
  end.

(** [json.dumps(v)] with the default arguments.  For an integer of more than
    [int_max_str_digits] digits [json.dumps] raises; [encode] is total and
    writes the digits, and [plain] below leaves such values out. *)
Definition dumps (v : PyVal) : string := String.string_of_list_ascii (encode v).

(** *** Reading *)

Definition is_ws (c : ascii) : bool :=
  let n := N_of_ascii c in
  ((n =? 32) || (n =? 9) || (n =? 10) || (n =? 13))%N.

Fixpoint skip_ws (l : list ascii) : list ascii :=
  match l with
  | c :: l' => if is_ws c then skip_ws l' else l
  | [] => []
  end.

(** The text starts with [word]: what follows it. *)
Fixpoint after_word (word l : list ascii) : option (list ascii) :=
  match word, l with
  | [], _ => Some l
  | a :: word', c :: l' => if Ascii.eqb a c then after_word word' l' else None
  | _ :: _, [] => None
  end.

Definition digit_value (c : ascii) : option (Decimal.uint → Decimal.uint) :=
  let n := N_of_ascii c in
  if (n =? 48)%N then Some Decimal.D0
  else if (n =? 49)%N then Some Decimal.D1
  else if (n =? 50)%N then Some Decimal.D2
  else if (n =? 51)%N then Some Decimal.D3
  else if (n =? 52)%N then Some Decimal.D4
  else if (n =? 53)%N then Some Decimal.D5
  else if (n =? 54)%N then Some Decimal.D6
  else if (n =? 55)%N then Some Decimal.D7
  else if (n =? 56)%N then Some Decimal.D8
  else if (n =? 57)%N then Some Decimal.D9
  else None.

(** The longest run of digits at the start of the text, and what follows. *)
Fixpoint read_digits (l : list ascii) : Decimal.uint * list ascii :=
  match l with
  | c :: l' =>
      match digit_value c with
      | Some digit => let (d, rest) := read_digits l' in (digit d, rest)
      | None => (Decimal.Nil, l)
      end
  | [] => (Decimal.Nil, [])
  end.

(** The text goes on as a fraction or an exponent. *)
Definition starts_fraction (l : list ascii) : bool :=
  match l with
  | c :: _ =>
      let n := N_of_ascii c in ((n =? 46) || (n =? 101) || (n =? 69))%N
  | [] => false
  end.

(** [sys.get_int_max_str_digits()]: the conversion between an integer and
    its text raises [ValueError] for more digits than this. *)
Definition int_max_str_digits : N := 4300.

Definition few_digits (d : Decimal.uint) : bool :=
  (N.of_nat (Decimal.nb_digits d) <=? int_max_str_digits)%N.

(** An integer without sign: a single zero, or digits that start with a
    digit other than zero. *)
Definition read_natural (l : list ascii) : option (Z * list ascii) :=
  match l with
  | c :: l' =>
      if (N_of_ascii c =? 48)%N then Some (0, l')
      else match read_digits l with
           | (Decimal.Nil, _) => None
           | (d, rest) => if few_digits d then Some (Z.of_uint d, rest) else None
           end
  | [] => None
  end.

Definition read_int (l : list ascii) : option (Z * list ascii) :=
  let signed :=
    match l with
    | c :: l' =>
        if (N_of_ascii c =? 45)%N
        then match read_natural l' with
             | Some (n, rest) => Some (- n, rest)
             | None => None
             end
        else read_natural l
    | [] => None
    end in
  match signed with
  | Some (n, rest) => if starts_fraction rest then None else Some (n, rest)
  | None => None
  end.

Definition hex_value (c : ascii) : option N :=
  let n := N_of_ascii c in
  if ((48 <=? n) && (n <=? 57))%N then Some (n - 48)%N
  else if ((97 <=? n) && (n <=? 102))%N then Some (n - 87)%N
  else if ((65 <=? n) && (n <=? 70))%N then Some (n - 55)%N
  else None.

Definition hex4 (h1 h2 h3 h4 : ascii) : option N :=
  match hex_value h1, hex_value h2, hex_value h3, hex_value h4 with
  | Some a, Some b, Some c, Some d => Some (((a * 16 + b) * 16 + c) * 16 + d)%N
  | _, _, _, _ => None
  end.

(** The character that a backslash and [c] stand for. *)
Definition unescape (c : ascii) : option ascii :=
  let n := N_of_ascii c in
  if (n =? 34)%N then Some quote
  else if (n =? 92)%N then Some backslash
  else if (n =? 47)%N then Some "/"%char
  else if (n =? 98)%N then Some "008"%char
  else if (n =? 102)%N then Some "012"%char
  else if (n =? 110)%N then Some "010"%char
  else if (n =? 114)%N then Some "013"%char
  else if (n =? 116)%N then Some "009"%char
  else None.

Definition push_char (c : ascii) (r : option (list ascii * list ascii))
    : option (list ascii * list ascii) :=
  match r with
  | Some (s, rest) => Some (c :: s, rest)
  | None => None
  end.

(** The characters of a string up to its closing quote, the opening quote
    being read already.  A control character in the string is an error. *)
Fixpoint scan_string (l : list ascii) : option (list ascii * list ascii) :=
  match l with
  | [] => None
  | c :: l1 =>
      if (N_of_ascii c =? 34)%N then Some ([], l1)
      else if (N_of_ascii c =? 92)%N then
        match l1 with
        | [] => None
        | e :: l2 =>
            if (N_of_ascii e =? 117)%N then
              match l2 with
              | h1 :: h2 :: h3 :: h4 :: l3 =>
                  match hex4 h1 h2 h3 h4 with
                  | Some n =>
                      if (n <? 256)%N
                      then push_char (ascii_of_N n) (scan_string l3)
                      else None
                  | None => None
                  end
              | _ => None
              end
            else
              match unescape e with
              | Some c' => push_char c' (scan_string l2)
              | None => None
              end
        end
      else if (N_of_ascii c <? 32)%N then None
      else push_char c (scan_string l1)
  end.

Definition key_eqb (a b : PyKey) : bool :=
  match a, b with
  | KStr s, KStr t => String.eqb s t
  | KInt n, KInt m => (n =? m)%Z
  | _, _ => false
  end.

(** [d[k] = v] on a dict in insertion order. *)
Fixpoint dict_set (d : list (PyKey * PyVal)) (k : PyKey) (v : PyVal)
    : list (PyKey * PyVal) :=
  match d with
  | [] => [(k, v)]
  | (k', v') :: d' =>
      if key_eqb k' k then (k', v) :: d' else (k', v') :: dict_set d' k v
  end.

(** One value at the start of the text, and what follows it.  [fuel] bounds
    the depth of the calls; the length of the text is enough. *)
Fixpoint decode_value (fuel : nat) (l : list ascii) : option (PyVal * list ascii) :=
  match fuel with
  | O => None
  | S fuel =>
      match l with
      | [] => None
      | c :: l1 =>
          let n := N_of_ascii c in
          if (n =? 34)%N then
            match scan_string l1 with
            | Some (s, rest) => Some (VStr (String.string_of_list_ascii s), rest)
            | None => None
            end
          else if (n =? 123)%N then
            match skip_ws l1 with
            | c' :: l2 =>
                if (N_of_ascii c' =? 125)%N then Some (VDict [], l2)
                else decode_members fuel (c' :: l2) []
            | [] => None
            end
          else if (n =? 91)%N then
            match skip_ws l1 with
            | c' :: l2 =>
                if (N_of_ascii c' =? 93)%N then Some (VList [], l2)
                else decode_items fuel (c' :: l2) []
            | [] => None
            end
          else if (n =? 110)%N then
            match after_word (chars "null") l with
            | Some rest => Some (VNone, rest)
            | None => None
            end
          else if (n =? 116)%N then
            match after_word (chars "true") l with
            | Some rest => Some (VBool true, rest)
            | None => None
            end
          else if (n =? 102)%N then
            match after_word (chars "false") l with
            | Some rest => Some (VBool false, rest)
            | None => None
            end
          else
            match read_int l with
            | Some (z, rest) => Some (VInt z, rest)
            | None => None
            end
      end
  end
with decode_items (fuel : nat) (l : list ascii) (done : list PyVal)
    : option (PyVal * list ascii) :=
  match fuel with
  | O => None
  | S fuel =>
      match decode_value fuel l with
      | Some (v, rest) =>
          match skip_ws rest with
          | c :: l1 =>
              if (N_of_ascii c =? 44)%N
              then decode_items fuel (skip_ws l1) (done ++ [v])
              else if (N_of_ascii c =? 93)%N
              then Some (VList (done ++ [v]), l1)
              else None
          | [] => None
          end
      | None => None
      end
  end
with decode_members (fuel : nat) (l : list ascii) (done : list (PyKey * PyVal))
    : option (PyVal * list ascii) :=
  match fuel with
  | O => None
  | S fuel =>
      match l with
      | c :: l1 =>
          if (N_of_ascii c =? 34)%N then
            match scan_string l1 with
            | Some (k, l2) =>
                match skip_ws l2 with
                | c2 :: l3 =>
                    if (N_of_ascii c2 =? 58)%N then
                      match decode_value fuel (skip_ws l3) with
                      | Some (v, l4) =>
                          let done' :=
                            dict_set done (KStr (String.string_of_list_ascii k)) v in
                          match skip_ws l4 with
                          | c3 :: l5 =>
                              if (N_of_ascii c3 =? 44)%N
                              then decode_members fuel (skip_ws l5) done'
                              else if (N_of_ascii c3 =? 125)%N
                              then Some (VDict done', l5)
                              else None
                          | [] => None
                          end
                      | None => None
                      end
                    else None
                | [] => None
                end
            | None => None
            end
          else None
      | [] => None
      end
  end.

(** [json.loads(text)]: one value, with nothing but white space around it;
    [None] where [json.loads] raises. *)
Definition loads (text : string) : option PyVal :=
  let l := chars text in
  match decode_value (S (length l)) (skip_ws l) with
  | Some (v, rest) =>
      match skip_ws rest with
      | [] => Some v
      | _ :: _ => None
      end
  | None => None
  end.

(** *** Values that come back as they went *)

Definition key_is_str (k : PyKey) : bool :=
  match k with
  | KStr _ => true
  | KInt _ => false
  end.

Fixpoint distinct_keys (keys : list PyKey) : bool :=
  match keys with
  | [] => true
  | k :: more => negb (existsb (key_eqb k) more) && distinct_keys more
  end.

Definition int_few_digits (n : Z) : bool :=
  match Z.to_int n with
  | Decimal.Pos d => few_digits d
  | Decimal.Neg d => few_digits d
  end.

(** The value holds no tuple and no integer that is too long to convert, and
    the keys of each of its dicts are strings, no two of them equal. *)
Fixpoint plain (v : PyVal) : bool :=
  match v with
  | VNone | VBool _ | VStr _ => true
  | VInt n => int_few_digits n
  | VList items => forallb plain items
  | VTuple _ => false
  | VDict items =>
      forallb (λ kv, match kv with (k, v) => key_is_str k && plain v end) items
      && distinct_keys (map fst items)
  end.

(** *** Vocabulary for the texts that [json.dumps] writes *)

(** What can follow a value inside a text that [json.dumps] wrote: the end,
    a comma, or a closing bracket. *)
Definition closes (rest : list ascii) : Prop :=
  match rest with
  | [] => True
  | c :: _ => c = ","%char ∨ c = "]"%char ∨ c = "}"%char
  end.

(** The first character of a written value is no white space and closes
    nothing. *)
Definition opens (l : list ascii) : Prop :=
  match l with
  | c :: _ =>
      is_ws c = false ∧ (N_of_ascii c =? 93)%N = false ∧
      (N_of_ascii c =? 125)%N = false
  | [] => False
  end.

Definition member_chars (kv : PyKey * PyVal) : list ascii :=
  match kv with
  | (k, v) => key_chars k ++ chars ": " ++ encode v
  end.

Definition member_ok (kv : PyKey * PyVal) : bool :=
  match kv with
  | (k, v) => key_is_str k && plain v
  end.

(** Reading a written value, the items of a written list and the members of
    a written dict; the fuel needed is the length of what was written. *)
Definition reads_values (fuel : nat) : Prop :=
  ∀ v rest, plain v = true → (length (encode v) ≤ fuel)%nat → closes rest →
    decode_value fuel (encode v ++ rest) = Some (v, rest).

Definition reads_items (fuel : nat) : Prop :=
  ∀ v more done rest,
    forallb plain (v :: more) = true →
    (length (join (map encode (v :: more))) < fuel)%nat →
    decode_items fuel (join (map encode (v :: more)) ++ "]"%char :: rest) done
      = Some (VList (done ++ v :: more), rest).

Definition reads_members (fuel : nat) : Prop :=
  ∀ kv more done rest,
    forallb member_ok (kv :: more) = true →
    distinct_keys (map fst (done ++ kv :: more)) = true →
    (length (join (map member_chars (kv :: more))) < fuel)%nat →
    decode_members fuel (join (map member_chars (kv :: more)) ++ "}"%char :: rest)
      done
      = Some (VDict (done ++ kv :: more), rest).

End Json.

(** The codec of the standard library on these values. *)
#[export] Instance pyval_codec : JsonCodec Json.PyVal :=
  {| json_dumps := Json.dumps; json_loads := Json.loads |}.

(** [cleanup_old]: [cutoff] is the ISO rendering of the clock minus [days]
    days, computed by the call. *)
Definition cleanup_old (buf : SyncBuffer) (cutoff : string) : SyncBuffer :=
  {| pending_sync :=
       filter (λ r, String.ltb (ps_created_at r) cutoff = false) (pending_sync buf);
     sync_history :=
       filter (λ h, String.ltb (sh_synced_at h) cutoff = false) (sync_history buf);
     agent_status := agent_status buf |}.

(** ** Histories of calls on the buffer *)

(** One call of a method of [SyncBuffer] that writes, with the values it
    reads from outside (the uuid and the clock). *)
Inductive QueueOp (P : Type) :=
  | OpAddPending (sync_id now store_id : string) (payload : P) (record_count : Z)
  | OpMarkSynced (sync_id now : string) (duration : Z)
  | OpMarkFailed (sync_id error : string)
  | OpCleanupOld (cutoff : string).
Arguments OpAddPending {P} _ _ _ _ _.
Arguments OpMarkSynced {P} _ _ _.
Arguments OpMarkFailed {P} _ _.
Arguments OpCleanupOld {P} _.

(** A call that raises commits nothing. *)
Definition apply_op {P} `{JsonCodec P} (buf : SyncBuffer) (op : QueueOp P) : SyncBuffer :=
  match op with
  | OpAddPending sync_id now store_id payload record_count =>
      match add_pending buf sync_id now store_id payload record_count with
      | inr (_, buf') => buf'
      | inl _ => buf
      end
  | OpMarkSynced sync_id now duration =>
      match mark_synced buf sync_id now duration with
      | inr buf' => buf'
      | inl _ => buf
      end
  | OpMarkFailed sync_id error => mark_failed buf sync_id error
  | OpCleanupOld cutoff => cleanup_old buf cutoff
  end.

Definition run_ops {P} `{JsonCodec P} (ops : list (QueueOp P)) (buf : SyncBuffer)
    : SyncBuffer :=
  foldl apply_op buf ops.

(** The id that a call is about ([None] for the purge, which is by age). *)
Definition op_id {P} (op : QueueOp P) : option string :=
  match op with
  | OpAddPending sync_id _ _ _ _ => Some sync_id
  | OpMarkSynced sync_id _ _ => Some sync_id
  | OpMarkFailed sync_id _ => Some sync_id
  | OpCleanupOld _ => None
  end.

(** The call enqueues under [sync_id]. *)
Definition adds_id {P} (sync_id : string) (op : QueueOp P) : Prop :=
  match op with
  | OpAddPending sync_id' _ _ _ _ => sync_id' = sync_id
  | _ => False
  end.

(** The call can change or remove the pending row of [sync_id]. *)
Definition touches_id {P} (sync_id : string) (op : QueueOp P) : Prop :=
  match op with
  | OpCleanupOld _ => True
  | _ => op_id op = Some sync_id
  end.

(** Oldest first, on the text of [created_at]. *)
Definition created_le (a b : PendingRow) : Prop :=
  (ps_created_at a ≤ ps_created_at b)%string.

(** The pending rows stored under [sync_id]. *)
Definition rows_of (sync_id : string) (buf : SyncBuffer) : list PendingRow :=
  filter (λ r, Sql.has_id sync_id r = true) (pending_sync buf).

(** ** Vocabulary for the statements on the agent *)

(** The attempt is a success: a response with status 200. *)
Definition is_success (o : Outcome) : bool :=
  match o with
  | Response status_code _ => status_code =? 200
  | RequestException _ => false
  end.

(** [time.sleep] accepts the length: it is not negative and within what the
    platform's clock type holds. *)
Definition sleep_accepts {record} (env : Env record) (seconds : Z) : Prop :=
  0 ≤ seconds ≤ sleep_max env.

(** Every pause that a run of [max_retries] failed attempts asks for is
    accepted by [time.sleep]. *)
Definition pauses_accepted {record} (env : Env record)
    (max_retries base_delay : Z) : Prop :=
  ∀ attempt, 1 ≤ attempt < max_retries →
    sleep_accepts env (base_delay * 2 ^ (attempt - 1)).

(** The value that a failed attempt assigns to [error_msg]. *)
Definition outcome_error (o : Outcome) : string :=
  match o with
  | Response status_code text => http_error_msg status_code text
  | RequestException msg => msg
  end.

Section Agent_spec.
Context {record : Type}.

Definition res_world {A} (r : Res record A) : World record :=
  match r with
  | Ok _ w => w
  | Raised _ w => w
  end.

(** The events of one failed attempt: the call, then the pause unless the
    attempt is the last one. *)
Definition attempt_events (url : option string) (payload : Payload record)
    (max_retries base_delay : Z) (attempt : Z) : list (Event record) :=
  EvPost url payload ::
  (if attempt <? max_retries then [EvSleep (base_delay * 2 ^ (attempt - 1))] else []).

(** The state after one failed attempt, and after a run of them. *)
Definition after_failed_attempt (url : option string) (payload : Payload record)
    (max_retries base_delay : Z) (w : World record) (attempt : Z) : World record :=
  let w1 := posted url payload w in
  if attempt <? max_retries then slept (base_delay * 2 ^ (attempt - 1)) w1 else w1.

Definition after_failed_attempts (url : option string) (payload : Payload record)
    (max_retries base_delay : Z) (attempts : list Z) (w : World record)
    : World record :=
  foldl (after_failed_attempt url payload max_retries base_delay) w attempts.

(** The state in which [push_to_api] returns [False]: after the clock
    reading for [start_time] and one failed attempt for each of
    [1..max_retries], [sync_errors] is incremented, and [mark_failed] is
    applied with the last error when a [sync_id] was given. *)
Definition failed_push_world (cfg : Config) (payload : Payload record)
    (sync_id : option string) (error : string) (w : World record) : World record :=
  let max_retries := default 5 (retry_attempts cfg) in
  let base_delay := default 30 (retry_delay_seconds cfg) in
  let w1 := after_failed_attempts (central_server_url cfg) payload max_retries
              base_delay (seqZ 1 max_retries) (clock_read w) in
  let w2 := with_sync_errors (sync_errors w + 1) w1 in
  if Py.truthy sync_id
  then with_buffer (mark_failed (buffer w) (default "" sync_id) error) w2
  else w2.

(** The pauses and the transport calls of a trace. *)
Definition sleeps_of (t : list (Event record)) : list Z :=
  flat_map (λ e, match e with EvSleep s => [s] | _ => [] end) t.

Definition posts_of (t : list (Event record)) : list (option string * Payload record) :=
  flat_map (λ e, match e with EvPost url p => [(url, p)] | _ => [] end) t.

(** What [push_to_api] called with [sync_id] does to the buffer when the
    delivery succeeds. *)
Definition delivered (sync_id : option string) (before after : SyncBuffer) : Prop :=
  if Py.truthy sync_id
  then ∃ now duration,
         mark_synced before (default "" sync_id) now duration = inr after
  else after = before.

(** The loop of [sync_pending] has gone through [items] from state [w] to
    state [w'] without stopping: each of them was passed over, being at the
    ceiling of 10 retries, or delivered. *)
Inductive passed (cfg : Config) (env : Env record)
    : list (Batch (Payload record)) → World record → World record → Prop :=
  | passed_none w : passed cfg env [] w w
  | passed_over item rest w w' :
      10 ≤ b_retry_count item →
      passed cfg env rest w w' →
      passed cfg env (item :: rest) w w'
  | passed_delivered item rest w w1 w' :
      b_retry_count item < 10 →
      push_to_api cfg env (b_payload item) (Some (b_id item)) w = Ok true w1 →
      passed cfg env rest w1 w' →
      passed cfg env (item :: rest) w w'.

(** A transport call made for one of [items] that is below the ceiling. *)
Definition post_for (cfg : Config) (items : list (Batch (Payload record)))
    (p : option string * Payload record) : Prop :=
  ∃ item, item ∈ items ∧ b_retry_count item < 10 ∧
          p = (central_server_url cfg, b_payload item).

(** A computation only adds events at the end of the trace. *)
Definition extends_trace {A} (c : M record A) : Prop :=
  ∀ w, ∃ more, trace (res_world (c w)) = trace w ++ more.

End Agent_spec.

(** The value of [error_msg] after the loop of [push_to_api] has run through
    [attempts] failed attempts from state [w]. *)
Definition last_error_msg {record} (env : Env record) (error_msg : option string)
    (attempts : list Z) (w : World record) : option string :=
  match attempts with
  | [] => error_msg
  | _ :: rest =>
      Some (outcome_error (requests_post env (posts w + length rest)))
  end.

(** ** Sample inputs

    Records are stood for by numbers. *)

Module Sample.

Definition config : Config :=
  {| central_server_url := Some "https://central.example/api/ingest";
     retry_attempts := Some 3;
     retry_delay_seconds := Some 1;
     store_id := Some "store-1" |}.

Definition instant : Instant :=
  {| isoformat := "2024-05-01T10:00:00";
     strftime := "2024-05-01 10:00:00";
     time_time := 1714557600 |}.

(** The payloads of the samples differ in their extraction time only. *)
Definition payload_at (extraction_time : string) : Payload nat :=
  {| pl_store_id := Some "store-1";
     pl_data := {[ "orderheaders" := [11%nat] ]};
     pl_extraction_time := extraction_time;
     pl_agent_version := AGENT_VERSION;
     pl_chunk_info := Some {| chunk_number := 1; total_chunks := 1;
                              chunk_records := 1 |} |}.

Definition payload : Payload nat := payload_at "2024-05-01 09:30:00".

(** The payload as the Python dict that [run_extraction_job] builds, and the
    way back from the dict that [json.loads] returns. *)
Definition payload_to_py (p : Payload nat) : Json.PyVal :=
  Json.VDict
    [(Json.KStr "store_id",
      match pl_store_id p with Some s => Json.VStr s | None => Json.VNone end);
     (Json.KStr "data",
      Json.VDict
        (map (λ kv : string * list nat,
                (Json.KStr kv.1,
                 Json.VList (map (λ n : nat, Json.VInt (Z.of_nat n)) kv.2)))
             (map_to_list (pl_data p))));
     (Json.KStr "extraction_time", Json.VStr (pl_extraction_time p));
     (Json.KStr "agent_version", Json.VStr (pl_agent_version p));
     (Json.KStr "chunk_info",
      match pl_chunk_info p with
      | Some c =>
          Json.VDict [(Json.KStr "chunk_number", Json.VInt (chunk_number c));
                      (Json.KStr "total_chunks", Json.VInt (total_chunks c));
                      (Json.KStr "chunk_records", Json.VInt (chunk_records c))]
      | None => Json.VNone
      end)].

Definition py_field (k : string) (v : Json.PyVal) : option Json.PyVal :=
  match v with
  | Json.VDict items =>
      match List.find (λ kv, Json.key_eqb (fst kv) (Json.KStr k)) items with
      | Some kv => Some (snd kv)
      | None => None
      end
  | _ => None
  end.

Definition py_int (v : option Json.PyVal) : option Z :=
  match v with
  | Some (Json.VInt n) => Some n
  | _ => None
  end.

Definition py_str (v : option Json.PyVal) : option string :=
  match v with
  | Some (Json.VStr s) => Some s
  | _ => None
  end.

Definition py_records (v : Json.PyVal) : option (list nat) :=
  match v with
  | Json.VList items =>
      mapM (λ x, match x with
                 | Json.VInt n => Some (Z.to_nat n)
                 | _ => None
                 end) items
  | _ => None
  end.

Definition py_data (v : option Json.PyVal) : option (gmap string (list nat)) :=
  match v with
  | Some (Json.VDict items) =>
      match mapM (λ kv : Json.PyKey * Json.PyVal,
                    match kv with
                    | (Json.KStr k, x) =>
                        match py_records x with
                        | Some l => Some (k, l)
                        | None => None
                        end
                    | _ => None
                    end) items with
      | Some pairs => Some (list_to_map pairs)
      | None => None
      end
  | _ => None
  end.

Definition py_chunk_info (v : option Json.PyVal) : option (option ChunkInfo) :=
  match v with
  | Some Json.VNone => Some None
  | Some c =>
      match py_int (py_field "chunk_number" c), py_int (py_field "total_chunks" c),
            py_int (py_field "chunk_records" c) with
      | Some n, Some t, Some r =>
          Some (Some {| chunk_number := n; total_chunks := t; chunk_records := r |})
      | _, _, _ => None
      end
  | None => None
  end.

Definition payload_of_py (v : Json.PyVal) : option (Payload nat) :=
  match py_data (py_field "data" v), py_str (py_field "extraction_time" v),
        py_str (py_field "agent_version" v),
        py_chunk_info (py_field "chunk_info" v) with
  | Some data, Some extraction_time, Some agent_version, Some chunk_info =>
      Some {| pl_store_id := py_str (py_field "store_id" v);
              pl_data := data;
              pl_extraction_time := extraction_time;
              pl_agent_version := agent_version;
              pl_chunk_info := chunk_info |}
  | _, _, _, _ => None
  end.

(** The codec of the standard library on these payloads. *)
Definition codec : JsonCodec (Payload nat) :=
  {| json_dumps := λ p, Json.dumps (payload_to_py p);
     json_loads := λ text, match Json.loads text with
                           | Some v => payload_of_py v
                           | None => None
                           end |}.

(** A payload as a Python value, and one that [json] does not read back as
    written: a key that is a number, and a tuple. *)
Definition json_payload : Json.PyVal :=
  Json.VDict
    [(Json.KStr "store_id", Json.VStr "store-1");
     (Json.KStr "data",
      Json.VDict [(Json.KStr "orderheaders",
                   Json.VList [Json.VDict [(Json.KStr "order_id", Json.VStr "11");
                                           (Json.KStr "grand_total", Json.VInt 25)]])]);
     (Json.KStr "chunk_info", Json.VNone)].

Definition odd_payload : Json.PyVal :=
  Json.VDict [(Json.KInt 1, Json.VTuple [Json.VInt 11; Json.VInt 12])].

(** Rows whose payload is the text that [json.dumps] writes. *)
Definition json_row (id created_at : string) (retry_count : Z) : PendingRow :=
  {| ps_id := id; ps_store_id := "store-1";
     ps_payload := Json.dumps json_payload; ps_record_count := 1;
     ps_created_at := created_at; ps_retry_count := retry_count;
     ps_last_error := None; ps_status := "pending" |}.

Definition json_rows : list PendingRow :=
  [ json_row "aaaa" "2024-04-30T08:00:00" 10;
    json_row "bbbb" "2024-04-30T09:00:00" 2;
    json_row "cccc" "2024-04-30T10:00:00" 0 ].

(** Surroundings in which every call meets the same outcome and the
    extraction finds what is given. *)
Definition env_with (o : Outcome) (found : Extraction nat) : Env nat :=
  {| requests_post := λ _, o;
     datetime_now := λ _, instant;
     uuid4 := λ n, "uuid-" +:+ pretty n;
     extract_all_data := λ _, found;
     sleep_max := 9223372036 |}.

Definition env_refused : Env nat :=
  env_with (RequestException "connection refused") (Extracted None).
Definition env_timeout : Env nat :=
  env_with (RequestException "read timed out") (Extracted None).
Definition env_accepting : Env nat :=
  env_with (Response 200 "ok") (Extracted None).

Definition row (id created_at : string) (retry_count : Z) : PendingRow :=
  {| ps_id := id; ps_store_id := "store-1";
     ps_payload := Json.dumps (payload_to_py payload); ps_record_count := 1;
     ps_created_at := created_at; ps_retry_count := retry_count;
     ps_last_error := None; ps_status := "pending" |}.

Definition buffer_of (rows : list PendingRow) : SyncBuffer :=
  {| pending_sync := rows; sync_history := []; agent_status := [] |}.

Definition world_of (rows : list PendingRow) : World nat :=
  {| buffer := buffer_of rows; last_sync := None; sync_errors := 0;
     posts := 0; clock_reads := 0; uuids := 0; extractions := 0;
     trace := [] |}.

(** One batch that was given up, one that is due, one behind it. *)
Definition three_rows : list PendingRow :=
  [ row "aaaa" "2024-04-30T08:00:00" 10;
    row "bbbb" "2024-04-30T09:00:00" 2;
    row "cccc" "2024-04-30T10:00:00" 0 ].

Definition batch (id : string) (retry_count : Z) : Batch (Payload nat) :=
  {| b_id := id; b_store_id := "store-1"; b_payload := payload;
     b_record_count := 1; b_retry_count := retry_count |}.

(** Four batches: one given up, then three that are due. *)
Definition four_rows : list PendingRow :=
  [ row "aaaa" "2024-04-30T08:00:00" 10;
    row "bbbb" "2024-04-30T09:00:00" 2;
    row "cccc" "2024-04-30T10:00:00" 0;
    row "dddd" "2024-04-30T11:00:00" 0 ].

(** Surroundings in which the first call is accepted and every later one is
    refused. *)
Definition env_first_only : Env nat :=
  {| requests_post := λ k, match k with
                           | O => Response 200 "ok"
                           | S _ => RequestException "connection refused"
                           end;
     datetime_now := λ _, instant;
     uuid4 := λ n, "uuid-" +:+ pretty n;
     extract_all_data := λ _, Extracted None;
     sleep_max := 9223372036 |}.

(** Configurations whose pauses [time.sleep] refuses. *)
Definition config_negative_delay : Config :=
  {| central_server_url := Some "https://central.example/api/ingest";
     retry_attempts := Some 3;
     retry_delay_seconds := Some (-1);
     store_id := Some "store-1" |}.

Definition config_long_delay : Config :=
  {| central_server_url := Some "https://central.example/api/ingest";
     retry_attempts := Some 2;
     retry_delay_seconds := Some 9223372037;
     store_id := Some "store-1" |}.

(** A result shaped as [extract_all_data] builds it. *)
Definition extraction : gmap string (list nat) :=
  extract_all_data_result [11; 12]%nat [] [31]%nat [41]%nat.

End Sample.
(** * Properties *)

(** ** Python builtins *)

Lemma range_from_zero (n step : Z) :
  0 < step →
  Py.range 0 n step =
    Some (map (λ k : nat, Z.of_nat k * step)
              (seq 0 (Z.to_nat (if 0 <? n then (n - 1) / step + 1 else 0)))).
Proof.
  intros Hstep. unfold Py.range, Py.range_len.
  destruct (Z.eqb_spec step 0) as [->|_]; [lia|].
  destruct (Z.ltb_spec 0 step); [|lia].
  f_equal. replace (n - 0 - 1) with (n - 1) by lia.
  apply map_ext. intros k. lia.
Qed.

Lemma slice_at_multiple {A} (l : list A) (c : Z) (k : nat) :
  0 < c →
  Py.slice l (Z.of_nat k * c) (Z.of_nat k * c + c) =
    take (Z.to_nat c) (drop (k * Z.to_nat c) l).
Proof.
  intros Hc. unfold Py.slice, Py.slice_bound.
  set (n := Z.of_nat (length l)).
  assert (Hk : 0 ≤ Z.of_nat k * c) by nia.
  destruct (Z.ltb_spec (Z.of_nat k * c) 0); [lia|].
  destruct (Z.ltb_spec (Z.of_nat k * c + c) 0); [lia|].
  assert (Hkc : Z.to_nat (Z.of_nat k * c) = (k * Z.to_nat c)%nat) by nia.
  destruct (Z.le_gt_cases n (Z.of_nat k * c)) as [Hge|Hlt].
  - rewrite (Z.min_r (Z.of_nat k * c) n), (Z.min_r (Z.of_nat k * c + c) n) by lia.
    replace (Z.to_nat (n - n)) with 0%nat by lia. rewrite take_0.
    rewrite (drop_ge l (k * Z.to_nat c)) by (subst n; lia).
    by rewrite take_nil.
  - rewrite (Z.min_l (Z.of_nat k * c) n) by lia. rewrite Hkc.
    destruct (Z.le_gt_cases (Z.of_nat k * c + c) n) as [Hle|Hgt].
    + rewrite Z.min_l by lia. f_equal. lia.
    + rewrite Z.min_r by lia.
      rewrite !take_ge; [done| |]; rewrite length_drop; subst n; lia.
Qed.

Lemma concat_slices {A} (l : list A) (c m : nat) :
  concat (map (λ k : nat, take c (drop (k * c) l)) (seq 0 m)) = take (m * c) l.
Proof.
  induction m as [|m IH]; [done|].
  rewrite seq_S, map_app, concat_app, IH. simpl.
  rewrite app_nil_r, take_take_drop. f_equal. lia.
Qed.

Lemma range_covers (n c : Z) :
  0 < c → 0 ≤ n →
  (Z.to_nat n ≤ Z.to_nat (if 0 <? n then (n - 1) / c + 1 else 0)%Z * Z.to_nat c)%nat.
Proof.
  intros Hc Hn. destruct (Z.ltb_spec 0 n) as [Hpos|]; [|lia].
  assert (0 ≤ (n - 1) / c) by (apply Z.div_pos; lia).
  assert (n - 1 < c * ((n - 1) / c + 1)).
  { pose proof (Z.mul_succ_div_gt (n - 1) c Hc). lia. }
  nia.
Qed.

(** ** The chunker *)

Section Chunker_facts.
Context {record : Type}.
Implicit Types (data : gmap string (list record)) (coll : list record).

(** The slices cut from one collection, put back together, give the
    collection. *)
Lemma chunk_collection_slices (mk : list record → gmap string (list record))
    coll (chunk_size : Z) :
  0 < chunk_size →
  ∃ starts,
    Py.range 0 (Py.len coll) chunk_size = Some starts ∧
    chunk_collection mk coll chunk_size =
      Some (map (λ i, let part := Py.slice coll i (i + chunk_size) in
                      (mk part, Py.len part)) starts) ∧
    concat (map (λ i, Py.slice coll i (i + chunk_size)) starts) = coll.
Proof.
  intros Hc. unfold chunk_collection.
  rewrite (range_from_zero _ _ Hc). eexists. split; [done|]. split; [done|].
  rewrite map_map.
  erewrite map_ext; last (intros k; apply (slice_at_multiple coll chunk_size k Hc)).
  rewrite concat_slices. apply take_ge.
  pose proof (range_covers (Py.len coll) chunk_size Hc) as Hcov.
  unfold Py.len in *. lia.
Qed.

Lemma reassemble_app key (c1 c2 : list (gmap string (list record) * Z)) :
  reassemble key (c1 ++ c2) = reassemble key c1 ++ reassemble key c2.
Proof. unfold reassemble. by rewrite map_app, concat_app. Qed.

Lemma reassemble_chunks key (mk : list record → gmap string (list record))
    (f : Z → list record) (starts : list Z) :
  reassemble key (map (λ i, (mk (f i), Py.len (f i))) starts) =
    concat (map (λ i, dict_get (mk (f i)) key) starts).
Proof. unfold reassemble. by rewrite map_map. Qed.

Lemma concat_all_nil {A B} (f : A → list B) (l : list A) :
  (∀ x, f x = []) → concat (map f l) = [].
Proof. intros Hf. induction l as [|x l IH]; simpl; [done|]. by rewrite Hf, IH. Qed.

(** For the three keys that [_chunk_data] itself names, and a positive
    chunk size, the slices of the chunks rebuild the collection. *)
Lemma chunk_data_named_collections data (chunk_size : Z) :
  0 < chunk_size →
  ∃ chunks,
    _chunk_data data chunk_size = inr chunks ∧
    reassemble "orderheaders" chunks = dict_get data "orderheaders" ∧
    reassemble "orderpayments" chunks = dict_get data "orderpayments" ∧
    reassemble "accountinvoiceerp" chunks = dict_get data "accountinvoiceerp".
Proof.
  intros Hc. unfold _chunk_data.
  set (oh := dict_get data "orderheaders").
  set (op := dict_get data "orderpayments").
  set (inv := dict_get data "accountinvoiceerp").
  destruct (Z.leb_spec (Py.len oh + Py.len op + Py.len inv) chunk_size) as [Hle|Hgt].
  - eexists. split; [done|]. unfold reassemble. simpl.
    by rewrite !app_nil_r.
  - destruct (chunk_collection_slices only_orderheaders oh chunk_size Hc)
      as (s1 & _ & -> & H1).
    destruct (chunk_collection_slices only_orderpayments op chunk_size Hc)
      as (s2 & _ & -> & H2).
    destruct (chunk_collection_slices only_invoices inv chunk_size Hc)
      as (s3 & _ & -> & H3).
    eexists. split; [done|].
    rewrite !reassemble_app.
    rewrite !(reassemble_chunks _ _ (λ i, Py.slice _ i (i + chunk_size))).
    repeat split.
    + rewrite (concat_all_nil (λ i, dict_get (only_orderpayments _) _)) by done.
      rewrite (concat_all_nil (λ i, dict_get (only_invoices _) _)) by done.
      rewrite !app_nil_r. exact H1.
    + rewrite (concat_all_nil (λ i, dict_get (only_orderheaders _) _)) by done.
      rewrite (concat_all_nil (λ i, dict_get (only_invoices _) _)) by done.
      rewrite app_nil_r. exact H2.
    + rewrite (concat_all_nil (λ i, dict_get (only_orderheaders _) _)) by done.
      rewrite (concat_all_nil (λ i, dict_get (only_orderpayments _) _)) by done.
      exact H3.
Qed.

End Chunker_facts.

Section Chunker_totals.
Context {record : Type}.
Implicit Types (data : gmap string (list record)).

Lemma total_records_nonneg data : 0 ≤ total_records data.
Proof.
  unfold total_records.
  apply (map_fold_weak_ind (λ acc _, 0 ≤ acc)); [done|].
  intros k v m acc _ Hacc. unfold Py.len. lia.
Qed.

Lemma total_records_delete data key :
  Py.len (dict_get data key) + total_records (delete key data) = total_records data.
Proof.
  unfold dict_get, total_records.
  destruct (data !! key) as [v|] eqn:Hk; simpl.
  - rewrite (map_fold_delete_L _ _ key v data); [done| |done].
    intros; lia.
  - by rewrite delete_id.
Qed.

Lemma dict_get_delete_ne data key key' :
  key ≠ key' → dict_get (delete key data) key' = dict_get data key'.
Proof. intros Hne. unfold dict_get. by rewrite lookup_delete_ne. Qed.

(** The total that [_chunk_data] computes over its three keys never exceeds
    the total over all collections of the input. *)
Lemma named_total_le_total data :
  Py.len (dict_get data "orderheaders") + Py.len (dict_get data "orderpayments")
    + Py.len (dict_get data "accountinvoiceerp") ≤ total_records data.
Proof.
  rewrite <- (total_records_delete data "orderheaders").
  rewrite <- (total_records_delete (delete "orderheaders" data) "orderpayments").
  rewrite <- (total_records_delete
                (delete "orderpayments" (delete "orderheaders" data))
                "accountinvoiceerp").
  rewrite !dict_get_delete_ne by done.
  pose proof (total_records_nonneg
    (delete "accountinvoiceerp"
       (delete "orderpayments" (delete "orderheaders" data)))).
  lia.
Qed.

End Chunker_totals.

Section Chunker_other_keys.
Context {record : Type}.
Implicit Types (data : gmap string (list record)).

Lemma other_key_in_chunk (key : string) (a b c : list record) :
  key ≠ "orderheaders" → key ≠ "orderpayments" → key ≠ "accountinvoiceerp" →
  dict_get ({[ "orderheaders" := a; "orderpayments" := b;
               "accountinvoiceerp" := c ]} : gmap string (list record)) key = [].
Proof.
  intros H1 H2 H3. unfold dict_get.
  by rewrite !lookup_insert_ne, lookup_singleton_ne by done.
Qed.

Lemma reassemble_other_key key (mk : list record → gmap string (list record))
    (coll : list record) (chunk_size : Z) chunks :
  (∀ part, dict_get (mk part) key = []) →
  chunk_collection mk coll chunk_size = Some chunks →
  reassemble key chunks = [].
Proof.
  intros Hmk. unfold chunk_collection.
  destruct (Py.range _ _ _) as [starts|]; [|done]. intros [= <-].
  unfold reassemble. rewrite map_map. apply concat_all_nil.
  intros i. simpl. apply Hmk.
Qed.

(** Once the three named collections together exceed [chunk_size], whatever
    the input holds under any other key is in no chunk. *)
Lemma chunk_data_other_keys_dropped data (chunk_size : Z) (key : string) chunks :
  key ≠ "orderheaders" → key ≠ "orderpayments" → key ≠ "accountinvoiceerp" →
  chunk_size < Py.len (dict_get data "orderheaders")
               + Py.len (dict_get data "orderpayments")
               + Py.len (dict_get data "accountinvoiceerp") →
  _chunk_data data chunk_size = inr chunks →
  reassemble key chunks = [].
Proof.
  intros H1 H2 H3 Hbig. unfold _chunk_data.
  destruct (Z.leb_spec
              (Py.len (dict_get data "orderheaders")
               + Py.len (dict_get data "orderpayments")
               + Py.len (dict_get data "accountinvoiceerp")) chunk_size); [lia|].
  destruct (chunk_collection only_orderheaders _ _) as [c1|] eqn:E1; [|done].
  destruct (chunk_collection only_orderpayments _ _) as [c2|] eqn:E2; [|done].
  destruct (chunk_collection only_invoices _ _) as [c3|] eqn:E3; [|done].
  intros [= <-]. rewrite !reassemble_app.
  rewrite (reassemble_other_key key _ _ _ _ (λ p, other_key_in_chunk key p [] [] H1 H2 H3) E1).
  rewrite (reassemble_other_key key _ _ _ _ (λ p, other_key_in_chunk key [] p [] H1 H2 H3) E2).
  by rewrite (reassemble_other_key key _ _ _ _ (λ p, other_key_in_chunk key [] [] p H1 H2 H3) E3).
Qed.

End Chunker_other_keys.

(** C8. For every extraction result whose total record count over all its
    collections is at most [chunk_size] (the empty result included),
    [_chunk_data] returns exactly one chunk, and the data of that chunk is the
    input itself. *)
Theorem chunk_data_small_is_single_chunk {record : Type}
    (data : gmap string (list record)) (chunk_size : Z) :
  total_records data ≤ chunk_size →
  ∃ chunk_count : Z,
    _chunk_data data chunk_size = inr [(data, chunk_count)] ∧
    chunk_count = Py.len (dict_get data "orderheaders")
                  + Py.len (dict_get data "orderpayments")
                  + Py.len (dict_get data "accountinvoiceerp").
Proof.
  intros Htotal. eexists. split; [|reflexivity].
  unfold _chunk_data.
  pose proof (named_total_le_total data) as Hnamed.
  destruct (Z.leb_spec
              (Py.len (dict_get data "orderheaders")
               + Py.len (dict_get data "orderpayments")
               + Py.len (dict_get data "accountinvoiceerp")) chunk_size);
    [reflexivity | lia].
Qed.

(** C1, evaluated on the code.  On a result shaped as [extract_all_data]
    builds it, with more records than [chunk_size], the chunks carry the two
    order headers one by one, and nothing under the keys
    [account_invoice_erp] and [orderdetails]: the invoice and the order
    detail of the input are in no chunk. *)
Theorem chunk_data_drops_unnamed_collections :
  let data := extract_all_data_result [11; 12]%nat [] [31]%nat [41]%nat in
  1 < total_records data ∧
  _chunk_data data 1 = inr [(only_orderheaders [11%nat], 1);
                            (only_orderheaders [12%nat], 1)] ∧
  (∀ chunks, _chunk_data data 1 = inr chunks →
     reassemble "orderheaders" chunks = [11; 12]%nat ∧
     reassemble "orderdetails" chunks = [] ∧
     dict_get data "orderdetails" = [41%nat] ∧
     reassemble "account_invoice_erp" chunks = [] ∧
     dict_get data "account_invoice_erp" = [31%nat]).
Proof.
  assert (He : _chunk_data (extract_all_data_result [11; 12]%nat [] [31]%nat [41]%nat) 1
               = inr [(only_orderheaders [11%nat], 1); (only_orderheaders [12%nat], 1)])
    by (vm_compute; reflexivity).
  cbv zeta. split; [vm_compute; reflexivity|]. split; [exact He|].
  intros chunks Hc. rewrite He in Hc. injection Hc as <-.
  repeat split; vm_compute; reflexivity.
Qed.

(** ** The buffer database *)

Lemma Forall2_pick_r {A B} (R : A → B → Prop) l k y :
  Forall2 R l k → y ∈ k → ∃ x, x ∈ l ∧ R x y.
Proof.
  induction 1 as [|x y' l k Hxy _ IH]; [by intros ?%elem_of_nil|].
  intros [->|Hin]%elem_of_cons.
  - exists x. split; [left|done].
  - destruct (IH Hin) as (x' & ? & ?). exists x'. split; [by right|done].
Qed.

Lemma Forall2_pick_l {A B} (R : A → B → Prop) l k x :
  Forall2 R l k → x ∈ l → ∃ y, y ∈ k ∧ R x y.
Proof.
  induction 1 as [|x' y l k Hxy _ IH]; [by intros ?%elem_of_nil|].
  intros [->|Hin]%elem_of_cons.
  - exists y. split; [left|done].
  - destruct (IH Hin) as (y' & ? & ?). exists y'. split; [by right|done].
Qed.

Lemma has_id_true sync_id r : Sql.has_id sync_id r = true ↔ ps_id r = sync_id.
Proof. unfold Sql.has_id. apply String.eqb_eq. Qed.

Lemma has_id_false sync_id r : Sql.has_id sync_id r = false ↔ ps_id r ≠ sync_id.
Proof. unfold Sql.has_id. apply String.eqb_neq. Qed.

Lemma no_row_existsb sync_id (rows : list PendingRow) :
  sync_id ∉ map ps_id rows → existsb (Sql.has_id sync_id) rows = false.
Proof.
  intros Hfresh. induction rows as [|r rows IH]; [done|]. simpl in *.
  apply not_elem_of_cons in Hfresh as [Hne Hrest].
  rewrite IH by done. rewrite orb_false_r. apply has_id_false. congruence.
Qed.

Lemma no_row_find sync_id (rows : list PendingRow) :
  sync_id ∉ map ps_id rows → List.find (Sql.has_id sync_id) rows = None.
Proof.
  intros Hfresh. induction rows as [|r rows IH]; [done|]. simpl in *.
  apply not_elem_of_cons in Hfresh as [Hne Hrest].
  destruct (Sql.has_id sync_id r) eqn:Hr; [|by apply IH].
  apply has_id_true in Hr. congruence.
Qed.

Lemma no_row_find_app sync_id (rows more : list PendingRow) :
  sync_id ∉ map ps_id rows →
  List.find (Sql.has_id sync_id) (rows ++ more) = List.find (Sql.has_id sync_id) more.
Proof.
  intros Hfresh. induction rows as [|r rows IH]; [done|]. simpl in *.
  apply not_elem_of_cons in Hfresh as [Hne Hrest].
  destruct (Sql.has_id sync_id r) eqn:Hr; [|by apply IH].
  apply has_id_true in Hr. congruence.
Qed.

Lemma no_row_filter sync_id (rows : list PendingRow) :
  sync_id ∉ map ps_id rows →
  filter (λ r, Sql.has_id sync_id r = false) rows = rows.
Proof.
  intros Hfresh. induction rows as [|r rows IH]; [done|]. simpl in *.
  apply not_elem_of_cons in Hfresh as [Hne Hrest].
  rewrite filter_cons_True by (apply has_id_false; congruence).
  by rewrite IH.
Qed.

Lemma no_row_selected sync_id (rows : list PendingRow) :
  sync_id ∉ map ps_id rows →
  filter (λ r, Sql.has_id sync_id r = true) rows = [].
Proof.
  intros Hfresh. induction rows as [|r rows IH]; [done|]. simpl in *.
  apply not_elem_of_cons in Hfresh as [Hne Hrest].
  rewrite filter_cons_False; [by apply IH|].
  intros Hid%has_id_true. congruence.
Qed.

Lemma no_row_bump sync_id error (rows : list PendingRow) :
  sync_id ∉ map ps_id rows → map (bump_retry sync_id error) rows = rows.
Proof.
  intros Hfresh. induction rows as [|r rows IH]; [done|]. simpl in *.
  apply not_elem_of_cons in Hfresh as [Hne Hrest].
  rewrite IH by done. f_equal. unfold bump_retry.
  assert (Sql.has_id sync_id r = false) as -> by (apply has_id_false; congruence).
  done.
Qed.

Lemma filtered_has_no_row sync_id (rows : list PendingRow) :
  sync_id ∉ map ps_id (filter (λ r, Sql.has_id sync_id r = false) rows).
Proof.
  intros Hin. apply list_elem_of_fmap in Hin as (r & Hid & Hr).
  apply list_elem_of_filter in Hr as [Hr _].
  apply has_id_false in Hr. congruence.
Qed.

Lemma no_history_existsb sync_id (rows : list HistoryRow) :
  sync_id ∉ map sh_id rows →
  existsb (λ h, String.eqb (sh_id h) sync_id) rows = false.
Proof.
  intros Hfresh. induction rows as [|h rows IH]; [done|]. simpl in *.
  apply not_elem_of_cons in Hfresh as [Hne Hrest].
  rewrite IH by done. rewrite orb_false_r. apply String.eqb_neq. congruence.
Qed.

Lemma bump_retry_id sync_id error r : ps_id (bump_retry sync_id error r) = ps_id r.
Proof. unfold bump_retry. by destruct (Sql.has_id sync_id r). Qed.

Lemma bump_retry_other sync_id error r :
  ps_id r ≠ sync_id → bump_retry sync_id error r = r.
Proof.
  intros Hne. unfold bump_retry.
  by assert (Sql.has_id sync_id r = false) as -> by by apply has_id_false.
Qed.

(** *** [ORDER BY] and [LIMIT] *)

Lemma insert_by_created_at_perm r rows :
  Sql.insert_by_created_at r rows ≡ₚ r :: rows.
Proof.
  induction rows as [|x rows IH]; simpl; [done|].
  destruct (String.ltb _ _); [done|].
  rewrite IH. apply Permutation_swap.
Qed.

Lemma order_by_created_at_perm rows : Sql.order_by_created_at rows ≡ₚ rows.
Proof.
  unfold Sql.order_by_created_at.
  rewrite <- (reverse_Permutation rows) at 2.
  induction (reverse rows) as [|r l IH]; simpl; [done|].
  by rewrite insert_by_created_at_perm, IH.
Qed.

Lemma ltb_created_le a b :
  String.ltb (ps_created_at a) (ps_created_at b) = true → created_le a b.
Proof.
  unfold created_le, String.le, String.ltb, String.leb.
  by destruct (String.compare _ _).
Qed.

Lemma not_ltb_created_le a b :
  String.ltb (ps_created_at a) (ps_created_at b) = false → created_le b a.
Proof.
  unfold created_le, String.le, String.ltb, String.leb.
  rewrite (String.compare_antisym (ps_created_at b) (ps_created_at a)).
  by destruct (String.compare (ps_created_at a) (ps_created_at b)).
Qed.

Global Instance created_le_trans : Transitive created_le.
Proof. intros a b c. unfold created_le. apply transitivity. Qed.

Lemma insert_by_created_at_sorted r rows :
  StronglySorted created_le rows →
  StronglySorted created_le (Sql.insert_by_created_at r rows).
Proof.
  induction 1 as [|x rows Hs IH Hx]; simpl.
  - repeat constructor.
  - destruct (String.ltb _ _) eqn:Hlt.
    + apply ltb_created_le in Hlt.
      constructor; [by constructor|].
      constructor; [done|].
      eapply Forall_impl; [exact Hx|]. intros y Hy. by etrans.
    + apply not_ltb_created_le in Hlt.
      constructor; [done|].
      rewrite insert_by_created_at_perm. by constructor.
Qed.

Lemma order_by_created_at_sorted rows :
  StronglySorted created_le (Sql.order_by_created_at rows).
Proof.
  unfold Sql.order_by_created_at.
  induction (reverse rows) as [|r l IH]; simpl; [constructor|].
  by apply insert_by_created_at_sorted.
Qed.

Lemma limit_sublist {A} (n : Z) (rows : list A) : Sql.limit n rows `sublist_of` rows.
Proof. unfold Sql.limit. destruct (n <? 0); [done|]. apply sublist_take. Qed.

Lemma limit_sorted n rows :
  StronglySorted created_le rows → StronglySorted created_le (Sql.limit n rows).
Proof.
  intros Hs. unfold Sql.limit. destruct (n <? 0); [done|].
  rewrite <- (take_drop (Z.to_nat n) rows) in Hs.
  by apply StronglySorted_app_1_l in Hs.
Qed.

Lemma limit_length {A} (n : Z) (rows : list A) :
  0 ≤ n → Z.of_nat (length (Sql.limit n rows)) ≤ n.
Proof.
  intros Hn. unfold Sql.limit.
  destruct (Z.ltb_spec n 0); [lia|]. rewrite length_take. lia.
Qed.

Lemma limit_all {A} (n : Z) (rows : list A) :
  n < 0 ∨ Z.of_nat (length rows) ≤ n → Sql.limit n rows = rows.
Proof.
  intros Hn. unfold Sql.limit.
  destruct (Z.ltb_spec n 0); [done|]. apply take_ge. lia.
Qed.

Lemma get_pending_rows_elem_of buf limit r :
  r ∈ get_pending_rows buf limit → ps_status r = "pending" ∧ r ∈ pending_sync buf.
Proof.
  unfold get_pending_rows. intros Hr.
  apply (λ H, elem_of_sublist _ _ _ H (limit_sublist _ _)) in Hr.
  rewrite order_by_created_at_perm in Hr.
  apply list_elem_of_filter in Hr as [Hp Hr]. split; [|done].
  unfold Sql.is_pending in Hp. by apply String.eqb_eq.
Qed.

Lemma get_pending_batches {P} `{JsonCodec P} buf limit (batches : list (Batch P)) :
  get_pending buf limit = inr batches →
  Forall2 (λ r b, batch_of_row r = Some b) (get_pending_rows buf limit) batches.
Proof.
  unfold get_pending. intros Hg.
  destruct (mapM batch_of_row _) as [bs|] eqn:Hm; [|done].
  injection Hg as <-. by apply mapM_Some_1.
Qed.

Lemma batch_of_row_id {P} `{JsonCodec P} r (b : Batch P) :
  batch_of_row r = Some b → b_id b = ps_id r.
Proof.
  unfold batch_of_row. destruct (json_loads _); [|done]. by intros [= <-].
Qed.

(** *** What later calls can do to one id *)

Section Histories.
Context {P : Type} `{JsonCodec P}.

Lemma apply_op_keeps_absent sync_id (op : QueueOp P) buf :
  ¬ adds_id sync_id op →
  sync_id ∉ map ps_id (pending_sync buf) →
  sync_id ∉ map ps_id (pending_sync (apply_op buf op)).
Proof.
  intros Hop Hfresh. destruct op as [id' t s p n|id' t d|id' e|cutoff]; simpl in *.
  - unfold add_pending. destruct (existsb _ _); [done|]. simpl.
    rewrite map_app. simpl. intros [Hin|Hin]%elem_of_app; [done|].
    apply list_elem_of_singleton in Hin. congruence.
  - unfold mark_synced. destruct (fetch_pending _ _); [|done].
    destruct (existsb _ _); [done|]. simpl.
    intros Hin. apply Hfresh.
    apply list_elem_of_fmap in Hin as (r & -> & Hr).
    apply list_elem_of_filter in Hr as [_ Hr]. by apply list_elem_of_fmap_2.
  - intros Hin. apply Hfresh.
    apply list_elem_of_fmap in Hin as (r & -> & Hr).
    apply list_elem_of_fmap in Hr as (r' & -> & Hr').
    rewrite bump_retry_id. by apply list_elem_of_fmap_2.
  - intros Hin. apply Hfresh.
    apply list_elem_of_fmap in Hin as (r & -> & Hr).
    apply list_elem_of_filter in Hr as [_ Hr]. by apply list_elem_of_fmap_2.
Qed.

Lemma run_ops_keeps_absent sync_id (ops : list (QueueOp P)) buf :
  Forall (λ op, ¬ adds_id sync_id op) ops →
  sync_id ∉ map ps_id (pending_sync buf) →
  sync_id ∉ map ps_id (pending_sync (run_ops ops buf)).
Proof.
  intros Hops. revert buf. unfold run_ops.
  induction Hops as [|op ops Hop _ IH]; intros buf Hfresh; simpl; [done|].
  apply IH. by apply apply_op_keeps_absent.
Qed.

Lemma rows_of_filter sync_id (Q : PendingRow → Prop) `{∀ r, Decision (Q r)}
    (rows : list PendingRow) row :
  Q row →
  filter (λ r, Sql.has_id sync_id r = true) rows = [row] →
  filter (λ r, Sql.has_id sync_id r = true) (filter Q rows) = [row].
Proof.
  intros Hrow Hrows.
  assert (Hcomm : ∀ l : list PendingRow,
    filter (λ r, Sql.has_id sync_id r = true) (filter Q l) =
    filter Q (filter (λ r, Sql.has_id sync_id r = true) l)).
  { induction l as [|x l IH]; [done|].
    destruct (decide (Q x)) as [Hq|Hq];
      destruct (Sql.has_id sync_id x) eqn:Hx;
      rewrite ?(filter_cons_True Q), ?(filter_cons_False Q) by done;
      rewrite ?(filter_cons_True (λ r, Sql.has_id sync_id r = true)),
              ?(filter_cons_False (λ r, Sql.has_id sync_id r = true)) by congruence;
      rewrite ?(filter_cons_True Q), ?(filter_cons_False Q) by done;
      by rewrite IH. }
  rewrite Hcomm, Hrows. by rewrite filter_cons_True.
Qed.

Lemma rows_of_bump sync_id id' error (rows : list PendingRow) :
  filter (λ r, Sql.has_id sync_id r = true) (map (bump_retry id' error) rows) =
    map (bump_retry id' error) (filter (λ r, Sql.has_id sync_id r = true) rows).
Proof.
  induction rows as [|r rows IH]; [done|]. simpl.
  assert (Hid : Sql.has_id sync_id (bump_retry id' error r) = Sql.has_id sync_id r).
  { unfold Sql.has_id. by rewrite bump_retry_id. }
  destruct (Sql.has_id sync_id r) eqn:Hr.
  - rewrite !filter_cons_True by congruence. simpl. by rewrite IH.
  - rewrite !filter_cons_False by congruence. done.
Qed.

Lemma apply_op_keeps_row sync_id row (op : QueueOp P) buf :
  ¬ touches_id sync_id op →
  ps_id row = sync_id →
  rows_of sync_id buf = [row] →
  rows_of sync_id (apply_op buf op) = [row].
Proof.
  intros Hop Hid Hrow. unfold rows_of in *.
  destruct op as [id' t s p n|id' t d|id' e|cutoff]; simpl in *.
  - unfold add_pending. destruct (existsb _ _); [done|]. simpl.
    rewrite filter_app, Hrow. rewrite filter_cons_False; [done|].
    simpl. intros Heq%has_id_true. simpl in Heq. congruence.
  - unfold mark_synced. destruct (fetch_pending _ _); [|done].
    destruct (existsb _ _); [done|]. simpl.
    apply rows_of_filter; [|done]. apply has_id_false. congruence.
  - rewrite rows_of_bump, Hrow. simpl. f_equal.
    apply bump_retry_other. congruence.
  - done.
Qed.

Lemma run_ops_keeps_row sync_id row (ops : list (QueueOp P)) buf :
  Forall (λ op, ¬ touches_id sync_id op) ops →
  ps_id row = sync_id →
  rows_of sync_id buf = [row] →
  rows_of sync_id (run_ops ops buf) = [row].
Proof.
  intros Hops Hid. revert buf. unfold run_ops.
  induction Hops as [|op ops Hop _ IH]; intros buf Hrow; simpl; [done|].
  apply IH. by apply apply_op_keeps_row.
Qed.

Lemma get_pending_absent sync_id buf limit (batches : list (Batch P)) :
  sync_id ∉ map ps_id (pending_sync buf) →
  get_pending buf limit = inr batches →
  sync_id ∉ map b_id batches.
Proof.
  intros Hfresh Hg Hin.
  apply list_elem_of_fmap in Hin as (b & -> & Hb).
  apply get_pending_batches in Hg.
  destruct (Forall2_pick_r _ _ _ _ Hg Hb) as (r & Hr & Hrb).
  apply batch_of_row_id in Hrb.
  apply get_pending_rows_elem_of in Hr as [_ Hr].
  apply Hfresh. rewrite Hrb. by apply list_elem_of_fmap_2.
Qed.

End Histories.

(** ** [json.loads] reads back what [json.dumps] wrote *)

Module Json_facts.
Import Json.

Lemma chars_of_string (l : list ascii) :
  chars (String.string_of_list_ascii l) = l.
Proof. apply String.list_ascii_of_string_of_list_ascii. Qed.

Lemma string_of_chars (s : string) :
  String.string_of_list_ascii (chars s) = s.
Proof. apply String.string_of_list_ascii_of_string. Qed.

Lemma closes_no_digit rest :
  closes rest →
  match rest with [] => True | c :: _ => digit_value c = None end.
Proof. destruct rest as [|c rest]; [done|]. by intros [->|[->| ->]]. Qed.

Lemma closes_no_fraction rest : closes rest → starts_fraction rest = false.
Proof. destruct rest as [|c rest]; [done|]. by intros [->|[->| ->]]. Qed.

Lemma closes_skip_ws rest : closes rest → skip_ws rest = rest.
Proof. destruct rest as [|c rest]; [done|]. by intros [->|[->| ->]]. Qed.

Lemma read_digits_uint_chars (d : Decimal.uint) rest :
  match rest with [] => True | c :: _ => digit_value c = None end →
  read_digits (uint_chars d ++ rest) = (d, rest).
Proof.
  intros Hrest. induction d as [|d IH|d IH|d IH|d IH|d IH|d IH|d IH|d IH|d IH|d IH];
    try (simpl; change (digit_value _) with (Some Decimal.D0) ||
         idtac; simpl; by rewrite IH).
  simpl. destruct rest as [|c rest]; [done|]. simpl. by rewrite Hrest.
Qed.

Lemma to_uint_normal (p : positive) :
  Decimal.unorm (Pos.to_uint p) = Pos.to_uint p.
Proof.
  pose proof (DecimalPos.Unsigned.to_of (Pos.to_uint p)) as Hto.
  rewrite DecimalPos.Unsigned.of_to in Hto. simpl in Hto. done.
Qed.

Lemma to_uint_no_leading_zero (p : positive) :
  match Pos.to_uint p with
  | Decimal.Nil | Decimal.D0 _ => False
  | _ => True
  end.
Proof.
  pose proof (to_uint_normal p) as Hnorm.
  pose proof (DecimalPos.Unsigned.to_uint_nonzero p) as Hnz.
  pose proof (DecimalPos.Unsigned.to_uint_nonnil p) as Hnn.
  destruct (Pos.to_uint p) as [|u|u|u|u|u|u|u|u|u|u]; try done.
  rewrite DecimalFacts.unorm_D0 in Hnorm.
  destruct u as [|u|u|u|u|u|u|u|u|u|u]; [done|..];
    match type of Hnorm with
    | Decimal.unorm ?x = _ =>
        pose proof (DecimalFacts.nb_digits_unorm x ltac:(done)) as Hlen;
        rewrite Hnorm in Hlen; simpl in Hlen; lia
    end.
Qed.

Lemma of_uint_to_uint (p : positive) : Z.of_uint (Pos.to_uint p) = Z.pos p.
Proof. exact (DecimalZ.of_to (Z.pos p)). Qed.

Lemma read_natural_positive (p : positive) rest :
  few_digits (Pos.to_uint p) = true →
  closes rest →
  read_natural (uint_chars (Pos.to_uint p) ++ rest) = Some (Z.pos p, rest).
Proof.
  intros Hfew Hrest. pose proof (to_uint_no_leading_zero p) as Hhead.
  pose proof (of_uint_to_uint p) as Hval.
  pose proof (read_digits_uint_chars (Pos.to_uint p) rest
                (closes_no_digit rest Hrest)) as Hread.
  unfold read_natural.
  destruct (Pos.to_uint p) as [|u|u|u|u|u|u|u|u|u|u]; try done;
    simpl in *; change (N_of_ascii _ =? 48)%N with false; cbv iota;
    destruct (read_digits (uint_chars u ++ rest)) as [d r];
    injection Hread as -> ->; by rewrite Hfew, Hval.
Qed.

Lemma read_int_chars (n : Z) rest :
  int_few_digits n = true →
  closes rest → read_int (int_chars n ++ rest) = Some (n, rest).
Proof.
  intros Hfew Hrest. unfold read_int, int_chars. unfold int_few_digits in Hfew.
  destruct n as [|p|p]; simpl Z.to_int in *; cbv iota in *.
  - simpl. by rewrite closes_no_fraction.
  - pose proof (read_natural_positive p rest Hfew Hrest) as Hnat.
    pose proof (to_uint_no_leading_zero p) as Hhead.
    destruct (uint_chars (Pos.to_uint p) ++ rest) as [|c l] eqn:Htext.
    { by destruct (Pos.to_uint p). }
    assert ((N_of_ascii c =? 45)%N = false) as ->.
    { destruct (Pos.to_uint p); simpl in Htext; try done;
        by injection Htext as <- _. }
    rewrite Hnat. by rewrite closes_no_fraction.
  - simpl. rewrite (read_natural_positive p rest Hfew Hrest).
    by rewrite closes_no_fraction.
Qed.


Lemma scan_escaped_char (c : ascii) (tail : list ascii) :
  scan_string (escape_char c ++ tail) = push_char c (scan_string tail).
Proof.
  destruct c as [[] [] [] [] [] [] [] []]; reflexivity.
Qed.

Lemma scan_string_chars (cs rest : list ascii) :
  scan_string (flat_map escape_char cs ++ quote :: rest) = Some (cs, rest).
Proof.
  induction cs as [|c cs IH]; [done|].
  change (flat_map escape_char (c :: cs))
    with (escape_char c ++ flat_map escape_char cs).
  rewrite <- app_assoc, scan_escaped_char, IH. done.
Qed.


Lemma opens_app l rest : opens l → opens (l ++ rest).
Proof. by destruct l. Qed.

Lemma opens_skip_ws l : opens l → skip_ws l = l.
Proof. destruct l as [|c l]; [done|]. simpl. by intros (-> & _). Qed.

Lemma opens_length l : opens l → (1 ≤ length l)%nat.
Proof. destruct l; [done|]. simpl. lia. Qed.

Lemma uint_chars_opens (d : Decimal.uint) :
  d ≠ Decimal.Nil → opens (uint_chars d).
Proof. by destruct d. Qed.

Lemma int_chars_opens (n : Z) : opens (int_chars n).
Proof.
  unfold int_chars. destruct n as [|p|p]; simpl; [done| |done].
  apply uint_chars_opens, DecimalPos.Unsigned.to_uint_nonnil.
Qed.

Lemma encode_opens (v : PyVal) : opens (encode v).
Proof.
  destruct v as [|[|]|n|s|items|items|items]; try done.
  apply int_chars_opens.
Qed.

Lemma join_opens (part : list ascii) (more : list (list ascii)) :
  opens part → opens (join (part :: more)).
Proof. destruct more; [done|]. simpl. apply opens_app. Qed.

Lemma join_cons (part next : list ascii) (more : list (list ascii)) :
  join (part :: next :: more) = part ++ ","%char :: " "%char :: join (next :: more).
Proof. reflexivity. Qed.

Lemma decode_int (fuel : nat) (n : Z) rest :
  int_few_digits n = true →
  closes rest →
  decode_value (S fuel) (int_chars n ++ rest) = Some (VInt n, rest).
Proof.
  intros Hfew Hrest. pose proof (read_int_chars n rest Hfew Hrest) as Hread.
  assert (Hhead : ∃ c l, int_chars n ++ rest = c :: l ∧
                         (digit_value c ≠ None ∨ c = "-"%char)).
  { unfold int_chars. destruct n as [|p|p]; simpl Z.to_int; cbv iota.
    - eexists _, _. split; [reflexivity|]. by left.
    - pose proof (DecimalPos.Unsigned.to_uint_nonnil p) as Hnn.
      destruct (Pos.to_uint p); try done;
        (eexists _, _; split; [reflexivity|]; by left).
    - eexists _, _. split; [reflexivity|]. by right. }
  destruct Hhead as (c & l & Htext & Hc). rewrite Htext in *.
  destruct Hc as [Hc| ->].
  - destruct c as [[] [] [] [] [] [] [] []]; try done;
      cbn -[read_int]; by rewrite Hread.
  - cbn -[read_int]. by rewrite Hread.
Qed.

Lemma key_eqb_sym (a b : PyKey) : key_eqb a b = key_eqb b a.
Proof.
  destruct a, b; simpl; try done.
  - apply String.eqb_sym.
  - apply Z.eqb_sym.
Qed.

Lemma distinct_keys_fresh (before : list PyKey) (k : PyKey) (after : list PyKey) :
  distinct_keys (before ++ k :: after) = true →
  existsb (λ k', key_eqb k' k) before = false.
Proof.
  induction before as [|k' before IH]; [done|]. simpl.
  intros (Hk' & Hrest)%andb_true_iff. rewrite (IH Hrest), orb_false_r.
  apply negb_true_iff in Hk'. rewrite existsb_app in Hk'.
  apply orb_false_iff in Hk' as (_ & Hk'). simpl in Hk'.
  by apply orb_false_iff in Hk' as (Hk' & _).
Qed.

Lemma dict_set_fresh (d : list (PyKey * PyVal)) (k : PyKey) (v : PyVal) :
  existsb (λ k', key_eqb k' k) (map fst d) = false →
  dict_set d k v = d ++ [(k, v)].
Proof.
  induction d as [|[k' v'] d IH]; [done|]. simpl.
  intros (Hk' & Hrest)%orb_false_iff. rewrite Hk'. by rewrite IH.
Qed.

Lemma reads_items_step (fuel : nat) :
  reads_values fuel → reads_items fuel → reads_items (S fuel).
Proof.
  intros Hvalues Hitems v more done rest Hplain Hlen.
  simpl in Hplain. apply andb_true_iff in Hplain as (Hv & Hmore).
  pose proof (opens_length _ (encode_opens v)) as Hv1.
  destruct more as [|v2 more].
  - change (join (map encode [v])) with (encode v) in *.
    cbn [decode_items].
    rewrite (Hvalues v ("]"%char :: rest) Hv); [|lia|by right; left]. done.
  - change (map encode (v :: v2 :: more))
      with (encode v :: encode v2 :: map encode more) in *.
    rewrite join_cons in *. rewrite length_app in Hlen. cbn [length] in Hlen.
    rewrite <- app_assoc. cbn [decode_items].
    rewrite (Hvalues v _ Hv); [|lia|by left].
    transitivity (decode_items fuel
                    (skip_ws (join (encode v2 :: map encode more) ++ "]"%char :: rest))
                    (done ++ [v])); [reflexivity|].
    rewrite opens_skip_ws
      by (apply opens_app, (join_opens (encode v2)), encode_opens).
    change (encode v2 :: map encode more) with (map encode (v2 :: more)).
    rewrite (Hitems v2 more (done ++ [v]) rest Hmore);
      [by rewrite <- app_assoc|].
    change (map encode (v2 :: more)) with (encode v2 :: map encode more). lia.
Qed.


Lemma key_chars_opens (k : PyKey) : opens (key_chars k).
Proof. by destruct k. Qed.

Lemma member_chars_opens (kv : PyKey * PyVal) : opens (member_chars kv).
Proof. destruct kv as [k v]. apply opens_app, key_chars_opens. Qed.

Lemma member_chars_length (k : PyKey) (v : PyVal) :
  length (member_chars (k, v))
    = (length (key_chars k) + 2 + length (encode v))%nat.
Proof. unfold member_chars. rewrite !length_app. simpl. lia. Qed.

(** One member of a written dict: the key, the colon, the value. *)
Lemma decode_members_key (fuel : nat) (cs X : list ascii)
    (done : list (PyKey * PyVal)) :
  decode_members (S fuel)
    (quote :: flat_map escape_char cs ++ quote :: ":"%char :: " "%char :: X) done
  = match decode_value fuel (skip_ws X) with
    | Some (v, l4) =>
        match skip_ws l4 with
        | c3 :: l5 =>
            if (N_of_ascii c3 =? 44)%N
            then decode_members fuel (skip_ws l5)
                   (dict_set done (KStr (String.string_of_list_ascii cs)) v)
            else if (N_of_ascii c3 =? 125)%N
            then Some (VDict (dict_set done (KStr (String.string_of_list_ascii cs)) v),
                       l5)
            else None
        | [] => None
        end
    | None => None
    end.
Proof.
  transitivity
    (match scan_string (flat_map escape_char cs ++ quote :: ":"%char :: " "%char :: X)
     with
     | Some (k, l2) =>
         match skip_ws l2 with
         | c2 :: l3 =>
             if (N_of_ascii c2 =? 58)%N then
               match decode_value fuel (skip_ws l3) with
               | Some (v, l4) =>
                   match skip_ws l4 with
                   | c3 :: l5 =>
                       if (N_of_ascii c3 =? 44)%N
                       then decode_members fuel (skip_ws l5)
                              (dict_set done (KStr (String.string_of_list_ascii k)) v)
                       else if (N_of_ascii c3 =? 125)%N
                       then Some (VDict (dict_set done
                                           (KStr (String.string_of_list_ascii k)) v),
                                  l5)
                       else None
                   | [] => None
                   end
               | None => None
               end
             else None
         | [] => None
         end
     | None => None
     end); [reflexivity|].
  rewrite scan_string_chars. reflexivity.
Qed.

Lemma reads_members_step (fuel : nat) :
  reads_values fuel → reads_members fuel → reads_members (S fuel).
Proof.
  intros Hvalues Hmembers [k v] more done rest Hok Hdistinct Hlen.
  simpl in Hok. apply andb_true_iff in Hok as (Hkv & Hmore).
  apply andb_true_iff in Hkv as (Hk & Hv).
  destruct k as [s|n]; [|done].
  pose proof (opens_length _ (encode_opens v)) as Hv1.
  assert (Hfresh : dict_set done (KStr s) v = done ++ [(KStr s, v)]).
  { apply dict_set_fresh.
    apply (distinct_keys_fresh _ _ (map fst more)).
    by rewrite map_app in Hdistinct. }
  destruct more as [|m more].
  - change (join (map member_chars [(KStr s, v)])) with (member_chars (KStr s, v)) in *.
    rewrite member_chars_length in Hlen.
    assert (Htext : member_chars (KStr s, v) ++ "}"%char :: rest
                    = quote :: flat_map escape_char (chars s) ++
                      quote :: ":"%char :: " "%char :: (encode v ++ "}"%char :: rest)).
    { unfold member_chars, key_chars, string_chars. simpl.
      by rewrite <- !app_assoc. }
    rewrite Htext, decode_members_key.
    rewrite opens_skip_ws by apply opens_app, encode_opens.
    rewrite (Hvalues v _ Hv); [|lia|by right; right].
    rewrite string_of_chars, Hfresh. reflexivity.
  - change (map member_chars ((KStr s, v) :: m :: more))
      with (member_chars (KStr s, v) :: member_chars m :: map member_chars more) in *.
    rewrite join_cons in *. rewrite length_app in Hlen. cbn [length] in Hlen.
    rewrite member_chars_length in Hlen.
    assert (Htext :
      (member_chars (KStr s, v) ++
         ","%char :: " "%char :: join (member_chars m :: map member_chars more))
        ++ "}"%char :: rest
      = quote :: flat_map escape_char (chars s) ++
        quote :: ":"%char :: " "%char ::
        (encode v ++ ","%char :: " "%char ::
           (join (member_chars m :: map member_chars more) ++ "}"%char :: rest))).
    { unfold member_chars at 1, key_chars, string_chars. simpl.
      by rewrite <- !app_assoc. }
    rewrite Htext, decode_members_key.
    rewrite opens_skip_ws by apply opens_app, encode_opens.
    rewrite (Hvalues v _ Hv); [|lia|by left].
    rewrite string_of_chars, Hfresh.
    transitivity (decode_members fuel
                    (skip_ws (join (member_chars m :: map member_chars more)
                              ++ "}"%char :: rest))
                    (done ++ [(KStr s, v)])); [reflexivity|].
    rewrite opens_skip_ws
      by (apply opens_app, (join_opens (member_chars m)), member_chars_opens).
    change (member_chars m :: map member_chars more)
      with (map member_chars (m :: more)).
    rewrite (Hmembers m more (done ++ [(KStr s, v)]) rest Hmore);
      [by rewrite <- app_assoc|by rewrite <- app_assoc|].
    change (map member_chars (m :: more))
      with (member_chars m :: map member_chars more). lia.
Qed.

Lemma decode_string (fuel : nat) (s : string) rest :
  decode_value (S fuel) (string_chars s ++ rest) = Some (VStr s, rest).
Proof.
  unfold string_chars.
  transitivity
    (match scan_string (flat_map escape_char (chars s) ++ quote :: rest) with
     | Some (cs, rest') => Some (VStr (String.string_of_list_ascii cs), rest')
     | None => None
     end).
  { cbn [app]. rewrite <- app_assoc. reflexivity. }
  by rewrite scan_string_chars, string_of_chars.
Qed.

Lemma decode_list_open (fuel : nat) (X : list ascii) :
  opens X → decode_value (S fuel) ("["%char :: X) = decode_items fuel X [].
Proof.
  destruct X as [|c l]; [done|]. intros (Hws & H93 & _).
  transitivity
    (match skip_ws (c :: l) with
     | c' :: l2 =>
         if (N_of_ascii c' =? 93)%N then Some (VList [], l2)
         else decode_items fuel (c' :: l2) []
     | [] => None
     end); [reflexivity|].
  cbn [skip_ws]. rewrite Hws. by rewrite H93.
Qed.

Lemma decode_dict_open (fuel : nat) (X : list ascii) :
  opens X → decode_value (S fuel) ("{"%char :: X) = decode_members fuel X [].
Proof.
  destruct X as [|c l]; [done|]. intros (Hws & _ & H125).
  transitivity
    (match skip_ws (c :: l) with
     | c' :: l2 =>
         if (N_of_ascii c' =? 125)%N then Some (VDict [], l2)
         else decode_members fuel (c' :: l2) []
     | [] => None
     end); [reflexivity|].
  cbn [skip_ws]. rewrite Hws. by rewrite H125.
Qed.

Lemma reads_values_step (fuel : nat) :
  reads_items fuel → reads_members fuel → reads_values (S fuel).
Proof.
  intros Hitems Hmembers v rest Hplain Hlen Hrest.
  destruct v as [|[|]|n|s|items|items|items]; try done.
  - by apply decode_int.
  - apply decode_string.
  - destruct items as [|v more]; [done|].
    change (encode (VList (v :: more)))
      with ("["%char :: join (map encode (v :: more)) ++ ["]"%char]) in *.
    cbn [length] in Hlen. rewrite length_app in Hlen. cbn [length] in Hlen.
    cbn [app]. rewrite <- app_assoc. cbn [app].
    rewrite decode_list_open
      by (apply opens_app, (join_opens (encode v)), encode_opens).
    rewrite (Hitems v more [] rest); [done|done|lia].
  - destruct items as [|kv more]; [done|].
    simpl in Hplain. apply andb_true_iff in Hplain as (Hok & Hdistinct).
    change (encode (VDict (kv :: more)))
      with ("{"%char :: join (map member_chars (kv :: more)) ++ ["}"%char]) in *.
    cbn [length] in Hlen. rewrite length_app in Hlen. cbn [length] in Hlen.
    cbn [app]. rewrite <- app_assoc. cbn [app].
    rewrite decode_dict_open
      by (apply opens_app, (join_opens (member_chars kv)), member_chars_opens).
    rewrite (Hmembers kv more [] rest); [done|done|done|lia].
Qed.

Lemma reads_all (fuel : nat) :
  reads_values fuel ∧ reads_items fuel ∧ reads_members fuel.
Proof.
  induction fuel as [|fuel (Hvalues & Hitems & Hmembers)].
  - split; [|split].
    + intros v rest _ Hlen. pose proof (opens_length _ (encode_opens v)). lia.
    + intros v more done rest _ Hlen. lia.
    + intros kv more done rest _ _ Hlen. lia.
  - split; [|split].
    + by apply reads_values_step.
    + by apply reads_items_step.
    + by apply reads_members_step.
Qed.

(** [json.loads(json.dumps(v))] is [v] for a value without tuples whose
    dicts have string keys. *)
Lemma loads_dumps (v : PyVal) : plain v = true → loads (dumps v) = Some v.
Proof.
  intros Hplain. unfold loads, dumps. rewrite chars_of_string.
  rewrite (opens_skip_ws _ (encode_opens v)).
  destruct (reads_all (S (length (encode v)))) as (Hvalues & _).
  pose proof (Hvalues v [] Hplain ltac:(lia) I) as Hread.
  rewrite app_nil_r in Hread. by rewrite Hread.
Qed.

End Json_facts.

(** *** Claims on the durable queue *)

(** C4. [add_pending] followed by [mark_synced] with the returned id: both
    calls succeed when the id drawn is fresh; the pending table is back to
    what it was, so no later [get_pending] returns the batch, whatever calls
    come in between that do not enqueue under the same id again; and the
    history has grown by exactly one row, which carries the id, the store id
    and the record count of the batch and the duration supplied.  The removal
    and the history row are one state change of [mark_synced]. *)
Theorem add_pending_then_mark_synced {P : Type} `{JsonCodec P}
    (buf : SyncBuffer) (sync_id now1 now2 store : string) (payload : P)
    (record_count duration : Z) :
  sync_id ∉ map ps_id (pending_sync buf) →
  sync_id ∉ map sh_id (sync_history buf) →
  ∃ buf1 buf2,
    add_pending buf sync_id now1 store payload record_count = inr (sync_id, buf1) ∧
    mark_synced buf1 sync_id now2 duration = inr buf2 ∧
    pending_sync buf2 = pending_sync buf ∧
    sync_history buf2 =
      sync_history buf ++
        [{| sh_id := sync_id; sh_store_id := store;
            sh_record_count := record_count; sh_synced_at := now2;
            sh_duration_seconds := duration; sh_status := Some "success";
            sh_error_message := None |}] ∧
    ∀ (ops : list (QueueOp P)) (limit : Z),
      Forall (λ op, ¬ adds_id sync_id op) ops →
      (sync_id ∉ map ps_id (get_pending_rows (run_ops ops buf2) limit)) ∧
      (∀ batches : list (Batch P),
         get_pending (run_ops ops buf2) limit = inr batches →
         sync_id ∉ map b_id batches).
Proof.
  intros Hpending Hhistory.
  unfold add_pending. rewrite (no_row_existsb _ _ Hpending).
  eexists. eexists. split; [reflexivity|].
  unfold mark_synced, fetch_pending. simpl.
  rewrite (no_row_find_app _ _ _ Hpending). simpl.
  assert (Sql.has_id sync_id
            {| ps_id := sync_id; ps_store_id := store;
               ps_payload := json_dumps payload; ps_record_count := record_count;
               ps_created_at := now1; ps_retry_count := 0;
               ps_last_error := None; ps_status := "pending" |} = true) as Hnew
    by by apply has_id_true.
  rewrite Hnew. rewrite (no_history_existsb _ _ Hhistory). simpl.
  split; [reflexivity|].
  assert (Hback :
    filter (λ r, Sql.has_id sync_id r = false)
      (pending_sync buf ++
         [{| ps_id := sync_id; ps_store_id := store;
             ps_payload := json_dumps payload; ps_record_count := record_count;
             ps_created_at := now1; ps_retry_count := 0;
             ps_last_error := None; ps_status := "pending" |}])
    = pending_sync buf).
  { rewrite filter_app, (no_row_filter _ _ Hpending).
    rewrite filter_cons_False by (rewrite Hnew; done).
    by rewrite app_nil_r. }
  rewrite Hback. split; [reflexivity|]. split; [reflexivity|].
  intros ops limit Hops.
  set (buf2 := {| pending_sync := pending_sync buf |}).
  assert (Habsent : sync_id ∉ map ps_id (pending_sync (run_ops ops buf2)))
    by by apply run_ops_keeps_absent.
  split.
  - intros Hin. apply Habsent.
    apply list_elem_of_fmap in Hin as (r & -> & Hr).
    apply get_pending_rows_elem_of in Hr as [_ Hr]. by apply list_elem_of_fmap_2.
  - intros batches Hg. by eapply get_pending_absent.
Qed.

(** C5. For an id that no pending row carries, [mark_synced] and
    [mark_failed] return without raising and leave the whole buffer as it
    was; and once [mark_synced] has succeeded for an id, a second success
    signal for the same id changes nothing. *)
Theorem mark_unknown_id_is_noop (buf : SyncBuffer) (sync_id : string) :
  sync_id ∉ map ps_id (pending_sync buf) →
  (∀ now duration, mark_synced buf sync_id now duration = inr buf) ∧
  (∀ error, mark_failed buf sync_id error = buf) ∧
  (∀ buf0 now0 duration0 buf1,
     mark_synced buf0 sync_id now0 duration0 = inr buf1 →
     ∀ now1 duration1, mark_synced buf1 sync_id now1 duration1 = inr buf1).
Proof.
  intros Hfresh.
  assert (Hnoop : ∀ b, sync_id ∉ map ps_id (pending_sync b) →
                       ∀ now duration, mark_synced b sync_id now duration = inr b).
  { intros b Hb now duration. unfold mark_synced, fetch_pending.
    by rewrite (no_row_find _ _ Hb). }
  split; [by apply Hnoop|]. split.
  - intros error. unfold mark_failed. rewrite (no_row_bump _ _ _ Hfresh).
    by destruct buf.
  - intros buf0 now0 duration0 buf1 H1. apply Hnoop.
    unfold mark_synced in H1.
    destruct (fetch_pending buf0 sync_id) eqn:Hfetch.
    + destruct (existsb _ _); [done|]. injection H1 as <-. simpl.
      apply filtered_has_no_row.
    + injection H1 as <-. unfold fetch_pending in Hfetch.
      intros Hin. apply list_elem_of_fmap in Hin as (r & Hid & Hr).
      apply list_elem_of_In in Hr.
      pose proof (find_none _ _ Hfetch r Hr) as Hnone.
      apply has_id_false in Hnone. congruence.
Qed.

(** What [get_pending] returns when every selected row holds a text that
    [json.loads] reads. *)
Lemma get_pending_returns {P : Type} `{JsonCodec P} (buf : SyncBuffer) (limit : Z) :
  Forall (λ r, is_Some (json_loads (P := P) (ps_payload r)))
         (get_pending_rows buf limit) →
  ∃ batches : list (Batch P),
    get_pending buf limit = inr batches ∧
    Forall2 (λ r b, batch_of_row r = Some b) (get_pending_rows buf limit) batches.
Proof.
  intros Hrows. unfold get_pending.
  assert (Hall : is_Some (mapM (batch_of_row (P := P)) (get_pending_rows buf limit))).
  { apply mapM_is_Some_2. eapply Forall_impl; [exact Hrows|].
    intros r [p Hp]. simpl. unfold batch_of_row. rewrite Hp. by eexists. }
  destruct Hall as [batches Hm]. rewrite Hm.
  exists batches. split; [done|]. by apply mapM_Some_1.
Qed.

(** The rows cut off by [LIMIT] are not older than the rows kept. *)
Lemma limit_keeps_oldest (n : Z) (rows : list PendingRow) :
  StronglySorted created_le rows →
  ∃ rest, Sql.limit n rows ++ rest = rows ∧
          ∀ r r', r ∈ Sql.limit n rows → r' ∈ rest → created_le r r'.
Proof.
  intros Hs. unfold Sql.limit. destruct (n <? 0).
  - exists []. split; [by rewrite app_nil_r|]. intros r r' _ Hr'.
    by apply not_elem_of_nil in Hr'.
  - exists (drop (Z.to_nat n) rows). split; [apply take_drop|].
    intros r r'. apply StronglySorted_app_1_elem_of. by rewrite take_drop.
Qed.

Lemma limit_exact_length {A} (n : Z) (rows : list A) :
  length (Sql.limit n rows)
    = if n <? 0 then length rows else Nat.min (Z.to_nat n) (length rows).
Proof. unfold Sql.limit. destruct (n <? 0); [done|]. apply length_take. Qed.


(** A payload that the codec reads back as written comes back from
    [get_pending] as it went in, whatever calls come in between that are
    about other ids. *)
Lemma enqueued_payload_kept {P : Type} `{JsonCodec P}
    (buf : SyncBuffer) (sync_id now store : string) (payload : P)
    (record_count : Z) :
  sync_id ∉ map ps_id (pending_sync buf) →
  json_loads (json_dumps payload) = Some payload →
  let enqueued := {| b_id := sync_id; b_store_id := store; b_payload := payload;
                     b_record_count := record_count; b_retry_count := 0 |} in
  ∃ buf1,
    add_pending buf sync_id now store payload record_count = inr (sync_id, buf1) ∧
    pending_sync buf1 =
      pending_sync buf ++
        [{| ps_id := sync_id; ps_store_id := store;
            ps_payload := json_dumps payload; ps_record_count := record_count;
            ps_created_at := now; ps_retry_count := 0;
            ps_last_error := None; ps_status := "pending" |}] ∧
    ∀ (ops : list (QueueOp P)) (limit : Z) (batches : list (Batch P)),
      Forall (λ op, ¬ touches_id sync_id op) ops →
      get_pending (run_ops ops buf1) limit = inr batches →
      (∀ b, b ∈ batches → b_id b = sync_id → b = enqueued) ∧
      (limit < 0 ∨
         Z.of_nat (length (filter (λ r, Sql.is_pending r = true)
                             (pending_sync (run_ops ops buf1)))) ≤ limit →
       enqueued ∈ batches).
Proof.
  intros Hfresh Hback enqueued.
  unfold add_pending. rewrite (no_row_existsb _ _ Hfresh).
  eexists. split; [reflexivity|]. split; [reflexivity|].
  set (row := {| ps_id := sync_id; ps_store_id := store;
                 ps_payload := json_dumps payload; ps_record_count := record_count;
                 ps_created_at := now; ps_retry_count := 0;
                 ps_last_error := None; ps_status := "pending" |}).
  set (buf1 := {| pending_sync := pending_sync buf ++ [row] |}).
  assert (Hrow : rows_of sync_id buf1 = [row]).
  { unfold rows_of, buf1. simpl. rewrite filter_app.
    rewrite (no_row_selected _ _ Hfresh).
    rewrite filter_cons_True; [done|]. by apply has_id_true. }
  assert (Hdecode : batch_of_row row = Some enqueued).
  { unfold batch_of_row. simpl. by rewrite Hback. }
  intros ops limit batches Hops Hg.
  pose proof (run_ops_keeps_row sync_id row ops buf1 Hops eq_refl Hrow) as Hkept.
  pose proof (get_pending_batches _ _ _ Hg) as Hall.
  split.
  - intros b Hb Hid.
    destruct (Forall2_pick_r _ _ _ _ Hall Hb) as (r & Hr & Hrb).
    assert (r = row) as ->.
    { apply get_pending_rows_elem_of in Hr as [_ Hr].
      assert (r ∈ rows_of sync_id (run_ops ops buf1)) as Hin.
      { apply list_elem_of_filter. split; [|done].
        apply has_id_true. by rewrite <- (batch_of_row_id _ _ Hrb). }
      rewrite Hkept in Hin. by apply list_elem_of_singleton in Hin. }
    congruence.
  - intros Hlimit.
    assert (row ∈ get_pending_rows (run_ops ops buf1) limit) as Hin.
    { unfold get_pending_rows. rewrite limit_all.
      - rewrite order_by_created_at_perm. apply list_elem_of_filter.
        split; [done|].
        assert (row ∈ rows_of sync_id (run_ops ops buf1)) as Hr
          by (rewrite Hkept; apply list_elem_of_singleton; done).
        by apply list_elem_of_filter in Hr as [_ Hr].
      - by rewrite order_by_created_at_perm. }
    destruct (Forall2_pick_l _ _ _ _ Hall Hin) as (b & Hb & Hrb).
    congruence.
Qed.


(** ** The delivery engine *)

Lemma range_attempts (n : Z) : Py.range 1 (n + 1) 1 = Some (seqZ 1 n).
Proof.
  unfold Py.range, Py.range_len, seqZ. simpl.
  f_equal.
  assert (Z.to_nat (if 1 <? n + 1 then (n + 1 - 1 - 1) / 1 + 1 else 0) = Z.to_nat n) as ->.
  { destruct (Z.ltb_spec 1 (n + 1)); [rewrite Z.div_1_r|]; lia. }
  apply map_ext. intros k. lia.
Qed.

Section Engine.
Context {record : Type}.
Variable cfg : Config.
Variable env : Env record.
Implicit Types (w : World record) (payload : Payload record)
  (sync_id : option string).

Lemma buffer_mark_synced_cases (id : string) (duration : Z) w :
  match buffer_mark_synced env id duration w with
  | Ok _ w' =>
      (∃ now, mark_synced (buffer w) id now duration = inr (buffer w')) ∧
      posts w' = posts w ∧ trace w' = trace w ∧ uuids w' = uuids w ∧
      extractions w' = extractions w
  | Raised e w' =>
      buffer w' = buffer w ∧ posts w' = posts w ∧ trace w' = trace w ∧
      uuids w' = uuids w ∧ extractions w' = extractions w
  end.
Proof.
  unfold buffer_mark_synced.
  destruct (fetch_pending (buffer w) id) eqn:Hfetch.
  - unfold bind, now. simpl.
    destruct (mark_synced (buffer w) id _ duration) eqn:Hm; simpl; [done|].
    split; [|done]. by eexists.
  - split; [|done]. exists "". unfold mark_synced. by rewrite Hfetch.
Qed.

(** One attempt whose call fails assigns the error and changes nothing but
    the trace and the count of calls. *)
Lemma attempt_once_failure url payload sync_id start_time w :
  is_success (requests_post env (posts w)) = false →
  attempt_once env url payload sync_id start_time w =
    Ok (inr (outcome_error (requests_post env (posts w)))) (posted url payload w).
Proof.
  intros Hfail. unfold attempt_once, bind, post.
  destruct (requests_post env (posts w)) as [status text|msg]; simpl in *; [|done].
  by rewrite Hfail.
Qed.

(** One attempt whose call succeeds returns [True], after [mark_synced] when
    a [sync_id] was given; it raises only if [mark_synced] does. *)
Lemma attempt_once_success url payload sync_id start_time w :
  is_success (requests_post env (posts w)) = true →
  match attempt_once env url payload sync_id start_time w with
  | Ok r w' =>
      r = inl true ∧ delivered sync_id (buffer w) (buffer w') ∧
      posts w' = S (posts w) ∧ trace w' = trace w ++ [EvPost url payload] ∧
      sync_errors w' = 0 ∧ uuids w' = uuids w ∧ extractions w' = extractions w
  | Raised e w' =>
      Py.truthy sync_id = true ∧ buffer w' = buffer w ∧
      posts w' = S (posts w) ∧ trace w' = trace w ++ [EvPost url payload] ∧
      uuids w' = uuids w ∧ extractions w' = extractions w
  end.
Proof.
  intros Hok. unfold attempt_once, bind, post, delivered.
  destruct (requests_post env (posts w)) as [status text|msg]; simpl in *; [|done].
  rewrite Hok. cbv beta.
  destruct (Py.truthy sync_id) eqn:Htruthy; [|done].
  match goal with
  | |- context [buffer_mark_synced env ?i ?d ?w0] =>
      pose proof (buffer_mark_synced_cases i d w0) as Hm;
      destruct (buffer_mark_synced env i d w0) as [[] w1|e w1]
  end; simpl in *.
  - destruct Hm as ((t & Ht) & Hp & Htr & Hu & He).
    split; [done|]. split; [by eexists _, _|]. by rewrite Hp, Htr, Hu, He.
  - destruct Hm as (Hb & Hp & Htr & Hu & He).
    by rewrite Hb, Hp, Htr, Hu, He.
Qed.

Lemma after_failed_attempts_frame url payload max_retries base_delay attempts w :
  let w' := after_failed_attempts url payload max_retries base_delay attempts w in
  buffer w' = buffer w ∧ last_sync w' = last_sync w ∧
  sync_errors w' = sync_errors w ∧ clock_reads w' = clock_reads w ∧
  uuids w' = uuids w ∧ extractions w' = extractions w ∧
  posts w' = (posts w + length attempts)%nat ∧
  trace w' = trace w ++
    flat_map (attempt_events url payload max_retries base_delay) attempts.
Proof.
  revert w. induction attempts as [|a attempts IH]; intros w; simpl.
  - rewrite app_nil_r. repeat split; lia.
  - specialize (IH (after_failed_attempt url payload max_retries base_delay w a)).
    simpl in IH. destruct IH as (-> & -> & -> & -> & -> & -> & -> & ->).
    unfold after_failed_attempt, attempt_events.
    destruct (a <? max_retries); simpl; rewrite <- ?app_assoc; simpl;
      repeat split; lia.
Qed.

(** A pause is made when [time.sleep] accepts its length, and raises
    otherwise, leaving everything as it was. *)
Lemma sleep_cases seconds w :
  match sleep env seconds w with
  | Ok _ w' => sleep_accepts env seconds ∧ w' = slept seconds w
  | Raised _ w' => ¬ sleep_accepts env seconds ∧ w' = w
  end.
Proof.
  unfold sleep, sleep_accepts.
  destruct (Z.ltb_spec seconds 0); [split; [lia|done]|].
  destruct (Z.ltb_spec (sleep_max env) seconds); [split; [lia|done]|].
  split; [lia|done].
Qed.

Lemma sleep_accepted seconds w :
  sleep_accepts env seconds → sleep env seconds w = Ok tt (slept seconds w).
Proof.
  intros Hacc. pose proof (sleep_cases seconds w) as Hs.
  destruct (sleep env seconds w) as [[] w'|e w'].
  - by destruct Hs as (_ & ->).
  - by destruct Hs as (Hno & _).
Qed.

(** The end of a failed attempt: the pause, unless the attempt is the last. *)
Lemma pause_accepted url payload max_retries base_delay a w :
  (a < max_retries → sleep_accepts env (base_delay * 2 ^ (a - 1))) →
  (if a <? max_retries then sleep env (base_delay * 2 ^ (a - 1)) else ret tt)
    (posted url payload w) =
  Ok tt (after_failed_attempt url payload max_retries base_delay w a).
Proof.
  intros Hacc. unfold after_failed_attempt.
  destruct (Z.ltb_spec a max_retries); [|done].
  by apply sleep_accepted, Hacc.
Qed.

Lemma pause_cases url payload max_retries base_delay a w :
  match (if a <? max_retries then sleep env (base_delay * 2 ^ (a - 1)) else ret tt)
          (posted url payload w) with
  | Ok _ w' =>
      (a < max_retries → sleep_accepts env (base_delay * 2 ^ (a - 1))) ∧
      w' = after_failed_attempt url payload max_retries base_delay w a
  | Raised _ w' =>
      a < max_retries ∧ ¬ sleep_accepts env (base_delay * 2 ^ (a - 1)) ∧
      w' = posted url payload w
  end.
Proof.
  unfold after_failed_attempt.
  destruct (Z.ltb_spec a max_retries) as [Hlt|Hge].
  - pose proof (sleep_cases (base_delay * 2 ^ (a - 1)) (posted url payload w)) as Hs.
    destruct (sleep env _ _) as [[] w'|e w'].
    + destruct Hs as (Hacc & ->). done.
    + destruct Hs as (Hno & ->). done.
  - simpl. split; [lia|done].
Qed.

(** When every call fails and every pause is accepted, the loop runs
    through all its attempts. *)
Lemma push_attempts_all_fail url payload sync_id start_time max_retries base_delay
    attempts error_msg w :
  (∀ k, is_success (requests_post env k) = false) →
  Forall (λ a, a < max_retries → sleep_accepts env (base_delay * 2 ^ (a - 1)))
         attempts →
  push_attempts env url payload sync_id start_time max_retries base_delay
    attempts error_msg w =
  Ok (Exhausted (last_error_msg env error_msg attempts w))
     (after_failed_attempts url payload max_retries base_delay attempts w).
Proof.
  intros Hfail Hacc. revert error_msg w.
  induction Hacc as [|a attempts Ha _ IH]; intros error_msg w; [done|].
  simpl. unfold bind at 1. rewrite attempt_once_failure by done.
  unfold bind at 1.
  rewrite (pause_accepted url payload max_retries base_delay a w Ha), IH. f_equal.
  destruct attempts as [|b attempts]; simpl.
  - by rewrite Nat.add_0_r.
  - do 3 f_equal. apply (f_equal (requests_post env)).
    unfold after_failed_attempt. destruct (a <? max_retries); simpl; lia.
Qed.

(** Whatever the calls do: the loop either returns [True] after a
    delivery, or runs through all its attempts, each of them failed and each
    pause accepted, or raises what [mark_synced] or [time.sleep] raised. *)
Lemma push_attempts_inv url payload sync_id start_time max_retries base_delay
    attempts error_msg w :
  match push_attempts env url payload sync_id start_time max_retries base_delay
          attempts error_msg w with
  | Ok (Exhausted error_msg') w' =>
      w' = after_failed_attempts url payload max_retries base_delay attempts w ∧
      error_msg' = last_error_msg env error_msg attempts w ∧
      (∀ k, (k < length attempts)%nat →
            is_success (requests_post env (posts w + k)) = false)
  | Ok (Returned result) w' =>
      result = true ∧ delivered sync_id (buffer w) (buffer w') ∧
      uuids w' = uuids w ∧ extractions w' = extractions w
  | Raised e w' =>
      buffer w' = buffer w ∧
      uuids w' = uuids w ∧ extractions w' = extractions w
  end.
Proof.
  revert error_msg w.
  induction attempts as [|a attempts IH]; intros error_msg w.
  - simpl. repeat split; try lia.
  - simpl. unfold bind at 1.
    destruct (is_success (requests_post env (posts w))) eqn:Hs.
    + pose proof (attempt_once_success url payload sync_id start_time w Hs) as Ha.
      destruct (attempt_once _ _ _ _ _ _) as [r w1|e w1].
      * destruct Ha as (-> & Hd & _ & _ & _ & Hu & He). simpl. done.
      * by destruct Ha as (Ht & Hb & _ & _ & Hu & He).
    + rewrite attempt_once_failure by done. unfold bind at 1.
      pose proof (pause_cases url payload max_retries base_delay a w) as Hstep.
      destruct ((if a <? max_retries
                 then sleep env (base_delay * 2 ^ (a - 1)) else ret tt)
                  (posted url payload w))
        as [[] w2|e w2]; [|by destruct Hstep as (_ & _ & ->)].
      destruct Hstep as (_ & Hw2).
      assert (Hframe : buffer w2 = buffer w ∧ uuids w2 = uuids w ∧
                       extractions w2 = extractions w ∧ posts w2 = S (posts w)).
      { rewrite Hw2. unfold after_failed_attempt. by destruct (a <? max_retries). }
      destruct Hframe as (Hb2 & Hu2 & Hx2 & Hp2).
      specialize (IH (Some (outcome_error (requests_post env (posts w)))) w2).
      destruct (push_attempts _ _ _ _ _ _ _ _ _ _) as [[result|em'] w'|e w'].
      * destruct IH as (-> & Hd & Hu & Hx). rewrite Hb2 in Hd.
        repeat split; [done|congruence..].
      * destruct IH as (-> & -> & Hall). rewrite Hw2.
        split; [done|]. split.
        -- destruct attempts as [|b attempts]; simpl.
           ++ by rewrite Nat.add_0_r.
           ++ rewrite <- Hw2, Hp2. do 3 f_equal. lia.
        -- intros [|k] Hk; [by rewrite Nat.add_0_r|].
           simpl in Hk. specialize (Hall k ltac:(lia)).
           rewrite Hp2 in Hall.
           by replace (posts w + S k)%nat with (S (posts w) + k)%nat by lia.
      * destruct IH as (Hb & Hu & Hx). repeat split; congruence.
Qed.

End Engine.

Section Push.
Context {record : Type}.
Variable cfg : Config.
Variable env : Env record.
Implicit Types (w : World record) (payload : Payload record)
  (sync_id : option string).

Let max_retries := default 5 (retry_attempts cfg).
Let base_delay := default 30 (retry_delay_seconds cfg).

Lemma failed_push_world_frame payload sync_id error w :
  let w' := failed_push_world cfg payload sync_id error w in
  buffer w' = (if Py.truthy sync_id
               then mark_failed (buffer w) (default "" sync_id) error
               else buffer w) ∧
  last_sync w' = last_sync w ∧
  sync_errors w' = sync_errors w + 1 ∧
  clock_reads w' = S (clock_reads w) ∧
  uuids w' = uuids w ∧ extractions w' = extractions w ∧
  posts w' = (posts w + Z.to_nat max_retries)%nat ∧
  trace w' = trace w ++
    flat_map (attempt_events (central_server_url cfg) payload max_retries base_delay)
             (seqZ 1 max_retries).
Proof.
  unfold failed_push_world. fold max_retries base_delay.
  pose proof (after_failed_attempts_frame (central_server_url cfg) payload
                max_retries base_delay (seqZ 1 max_retries) (clock_read w))
    as (Hb & Hl & He & Hc & Hu & Hx & Hp & Ht).
  rewrite length_seqZ in Hp. simpl in *.
  destruct (Py.truthy sync_id); simpl; by rewrite ?Hb, Hl, Hc, Hu, Hx, Hp, Ht.
Qed.

(** What a call of [push_to_api] can do, by its result. *)
Lemma push_to_api_inv payload sync_id w :
  match push_to_api cfg env payload sync_id w with
  | Ok true w' =>
      delivered sync_id (buffer w) (buffer w') ∧
      uuids w' = uuids w ∧ extractions w' = extractions w
  | Ok false w' =>
      ∃ error,
        (Py.truthy sync_id = true →
         last_error_msg env None (seqZ 1 max_retries) (clock_read w) = Some error) ∧
        w' = failed_push_world cfg payload sync_id error w
  | Raised e w' =>
      buffer w' = buffer w ∧
      uuids w' = uuids w ∧ extractions w' = extractions w
  end.
Proof.
  unfold push_to_api, failed_push_world. fold max_retries base_delay.
  rewrite range_attempts. unfold bind at 1. unfold now at 1. unfold bind at 1.
  simpl default at 1.
  pose proof (push_attempts_inv env (central_server_url cfg) payload sync_id
                (time_time (datetime_now env (clock_reads w)))
                max_retries base_delay (seqZ 1 max_retries) None (clock_read w))
    as Hloop.
  destruct (push_attempts _ _ _ _ _ _ _ _ _ _) as [[result|em'] w1|e w1].
  - destruct Hloop as (-> & Hd & Hu & Hx). done.
  - destruct Hloop as (-> & -> & _).
    pose proof (after_failed_attempts_frame (central_server_url cfg) payload
                  max_retries base_delay (seqZ 1 max_retries) (clock_read w))
      as (Hb & _ & He & _ & Hu & Hx & _).
    simpl in Hb, He, Hu, Hx. unfold bind. simpl. rewrite He.
    destruct (Py.truthy sync_id) eqn:Htruthy.
    + destruct (last_error_msg _ _ _ _) as [msg|]; simpl; [|by rewrite Hb, Hu, Hx].
      exists msg. split; [done|]. unfold buffer_mark_failed. simpl. by rewrite Hb.
    + simpl. exists "". split; [done|]. done.
  - destruct Hloop as (Hb & Hu & Hx). done.
Qed.

Lemma pauses_accepted_attempts :
  pauses_accepted env max_retries base_delay →
  Forall (λ a, a < max_retries → sleep_accepts env (base_delay * 2 ^ (a - 1)))
         (seqZ 1 max_retries).
Proof.
  intros Hacc. apply Forall_seqZ. intros a Ha Hlt. apply Hacc. lia.
Qed.

(** The run of [push_to_api] when every call fails and every pause is
    accepted. *)
Lemma push_to_api_all_fail payload sync_id w :
  1 ≤ max_retries →
  (∀ k, is_success (requests_post env k) = false) →
  pauses_accepted env max_retries base_delay →
  push_to_api cfg env payload sync_id w =
    Ok false
      (failed_push_world cfg payload sync_id
         (outcome_error (requests_post env (posts w + Z.to_nat max_retries - 1))) w).
Proof.
  intros Hmax Hfail Hacc.
  unfold push_to_api, failed_push_world. fold max_retries base_delay.
  rewrite range_attempts. unfold bind at 1. unfold now at 1. unfold bind at 1.
  simpl default at 1.
  rewrite push_attempts_all_fail by (done || by apply pauses_accepted_attempts).
  pose proof (after_failed_attempts_frame (central_server_url cfg) payload
                max_retries base_delay (seqZ 1 max_retries) (clock_read w))
    as (Hb & _ & He & _).
  simpl in Hb, He. unfold bind. simpl. rewrite He.
  destruct (Py.truthy sync_id); [|done].
  assert (last_error_msg env None (seqZ 1 max_retries) (clock_read w) =
          Some (outcome_error
                  (requests_post env (posts w + Z.to_nat max_retries - 1)))) as ->.
  { unfold last_error_msg.
    destruct (seqZ 1 max_retries) as [|a rest] eqn:Hseq.
    - apply (f_equal length) in Hseq. rewrite length_seqZ in Hseq. simpl in Hseq. lia.
    - apply (f_equal length) in Hseq. rewrite length_seqZ in Hseq. simpl in *.
      do 2 f_equal. apply (f_equal (requests_post env)). lia. }
  simpl. unfold buffer_mark_failed. simpl. by rewrite Hb.
Qed.

End Push.

(** *** The events of a run of failed attempts *)

Section Attempt_events.
Context {record : Type}.
Variables (url : option string) (payload : Payload record).
Variables (max_retries base_delay : Z).

Lemma seqZ_attempts_split :
  1 ≤ max_retries → seqZ 1 max_retries = seqZ 1 (max_retries - 1) ++ [max_retries].
Proof.
  intros Hmax.
  replace max_retries with (Z.of_nat (S (Z.to_nat (max_retries - 1)))) at 1 by lia.
  rewrite seqZ_S. f_equal; [f_equal; lia|f_equal; lia].
Qed.

Lemma sleeps_of_app (t1 t2 : list (Event record)) :
  sleeps_of (t1 ++ t2) = sleeps_of t1 ++ sleeps_of t2.
Proof. apply flat_map_app. Qed.

Lemma posts_of_app (t1 t2 : list (Event record)) :
  posts_of (t1 ++ t2) = posts_of t1 ++ posts_of t2.
Proof. apply flat_map_app. Qed.

Lemma sleeps_of_early_attempts (attempts : list Z) :
  Forall (λ a, a < max_retries) attempts →
  sleeps_of (flat_map (attempt_events url payload max_retries base_delay) attempts)
    = map (λ a, base_delay * 2 ^ (a - 1)) attempts.
Proof.
  induction 1 as [|a attempts Ha _ IH]; [done|].
  change (sleeps_of
            (attempt_events url payload max_retries base_delay a ++
             flat_map (attempt_events url payload max_retries base_delay) attempts)
          = base_delay * 2 ^ (a - 1) ::
            map (λ a, base_delay * 2 ^ (a - 1)) attempts).
  rewrite sleeps_of_app, IH. unfold attempt_events.
  by destruct (Z.ltb_spec a max_retries); [|lia].
Qed.

Lemma posts_of_attempts (attempts : list Z) :
  posts_of (flat_map (attempt_events url payload max_retries base_delay) attempts)
    = replicate (length attempts) (url, payload).
Proof.
  induction attempts as [|a attempts IH]; [done|].
  change (posts_of
            (attempt_events url payload max_retries base_delay a ++
             flat_map (attempt_events url payload max_retries base_delay) attempts)
          = (url, payload) :: replicate (length attempts) (url, payload)).
  rewrite posts_of_app, IH. unfold attempt_events.
  by destruct (a <? max_retries).
Qed.

(** The pauses of a whole run are those of the attempts before the last:
    nothing is slept after the last attempt, whose only event is the call. *)
Lemma attempts_trace_facts :
  1 ≤ max_retries →
  let new := flat_map (attempt_events url payload max_retries base_delay)
                      (seqZ 1 max_retries) in
  sleeps_of new = map (λ a, base_delay * 2 ^ (a - 1)) (seqZ 1 (max_retries - 1)) ∧
  posts_of new = replicate (Z.to_nat max_retries) (url, payload) ∧
  last new = Some (EvPost url payload).
Proof.
  intros Hmax new. split; [|split].
  - unfold new. rewrite seqZ_attempts_split by done.
    rewrite flat_map_app, sleeps_of_app.
    rewrite sleeps_of_early_attempts by (apply Forall_seqZ; intros; lia).
    unfold flat_map, attempt_events.
    destruct (Z.ltb_spec max_retries max_retries); [lia|].
    simpl. by rewrite app_nil_r.
  - unfold new. by rewrite posts_of_attempts, length_seqZ.
  - unfold new. rewrite seqZ_attempts_split by done.
    rewrite flat_map_app.
    change (flat_map (attempt_events url payload max_retries base_delay) [max_retries])
      with (attempt_events url payload max_retries base_delay max_retries ++ []).
    unfold attempt_events at 2.
    destruct (Z.ltb_spec max_retries max_retries); [lia|].
    simpl. apply last_snoc.
Qed.

End Attempt_events.

(** *** Claims on the delivery engine *)

(** C2, as the code has it.  A call of [push_to_api] without a [sync_id]
    ([None], or the empty string) leaves the buffer as it was, whatever the
    transport does and however the call ends; a call with a [sync_id]
    applies [mark_synced] itself when it delivers and [mark_failed] itself
    when it gives up. *)
Theorem push_to_api_buffer_effect {record : Type} (cfg : Config) (env : Env record)
    (payload : Payload record) (sync_id : option string) (w : World record) :
  Py.truthy sync_id = false →
  buffer (res_world (push_to_api cfg env payload sync_id w)) = buffer w ∧
  (∀ id : string, id ≠ "" →
     match push_to_api cfg env payload (Some id) w with
     | Ok true w' =>
         ∃ now duration, mark_synced (buffer w) id now duration = inr (buffer w')
     | Ok false w' => ∃ error, buffer w' = mark_failed (buffer w) id error
     | Raised _ w' => buffer w' = buffer w
     end).
Proof.
  intros Hfalsy. split.
  - pose proof (push_to_api_inv cfg env payload sync_id w) as Hinv.
    destruct (push_to_api cfg env payload sync_id w) as [[|] w'|e w']; simpl.
    + destruct Hinv as (Hd & _). unfold delivered in Hd. by rewrite Hfalsy in Hd.
    + destruct Hinv as (error & _ & ->).
      pose proof (failed_push_world_frame cfg payload sync_id error w) as (Hb & _).
      rewrite Hb. by rewrite Hfalsy.
    + by destruct Hinv as (Hb & _).
  - intros id Hid.
    assert (Htruthy : Py.truthy (Some id) = true).
    { simpl. by apply negb_true_iff, String.eqb_neq. }
    pose proof (push_to_api_inv cfg env payload (Some id) w) as Hinv.
    destruct (push_to_api cfg env payload (Some id) w) as [[|] w'|e w'].
    + destruct Hinv as (Hd & _). unfold delivered in Hd. by rewrite Htruthy in Hd.
    + destruct Hinv as (error & _ & ->). exists error.
      pose proof (failed_push_world_frame cfg payload (Some id) error w) as (Hb & _).
      rewrite Hb. by rewrite Htruthy.
    + by destruct Hinv as (Hb & _).
Qed.


(** ** The coordinator *)

Section Trace.
Context {record : Type} `{JsonCodec (Payload record)}.
Variable cfg : Config.
Variable env : Env record.

Lemma extends_ret {A} (a : A) : extends_trace (ret (record := record) a).
Proof. intros w. exists []. simpl. by rewrite app_nil_r. Qed.

Lemma extends_raise {A} (e : Exn) : extends_trace (raise (record := record) (A := A) e).
Proof. intros w. exists []. simpl. by rewrite app_nil_r. Qed.

Lemma extends_bind {A B} (c : M record A) (k : A → M record B) :
  extends_trace c → (∀ a, extends_trace (k a)) → extends_trace (bind c k).
Proof.
  intros Hc Hk w. unfold bind. destruct (Hc w) as (m1 & H1).
  destruct (c w) as [a w1|e w1]; simpl in *.
  - destruct (Hk a w1) as (m2 & H2). exists (m1 ++ m2).
    by rewrite H2, H1, app_assoc.
  - by exists m1.
Qed.

Lemma extends_same_trace {A} (c : M record A) :
  (∀ w, trace (res_world (c w)) = trace w) → extends_trace c.
Proof. intros Hc w. exists []. by rewrite Hc, app_nil_r. Qed.

Lemma extends_post url payload : extends_trace (post env url payload).
Proof. intros w. by eexists. Qed.

Lemma extends_sleep seconds : extends_trace (sleep env seconds).
Proof.
  intros w. unfold sleep.
  destruct (seconds <? 0); [exists []; simpl; by rewrite app_nil_r|].
  destruct (sleep_max env <? seconds); [exists []; simpl; by rewrite app_nil_r|].
  by eexists.
Qed.

Lemma extends_now : extends_trace (now env).
Proof. by apply extends_same_trace. Qed.

Lemma extends_new_uuid : extends_trace (new_uuid env).
Proof. by apply extends_same_trace. Qed.

Lemma extends_buffer_mark_synced id duration :
  extends_trace (buffer_mark_synced env id duration).
Proof.
  apply extends_same_trace. intros w.
  pose proof (buffer_mark_synced_cases env id duration w) as Hm.
  destruct (buffer_mark_synced env id duration w); simpl; tauto.
Qed.

Lemma extends_buffer_mark_failed id error :
  extends_trace (buffer_mark_failed (record := record) id error).
Proof. by apply extends_same_trace. Qed.

Lemma extends_buffer_add_pending store payload record_count :
  extends_trace (buffer_add_pending env store payload record_count).
Proof.
  unfold buffer_add_pending.
  apply extends_bind; [apply extends_new_uuid|]. intros sync_id.
  apply extends_bind; [apply extends_now|]. intros t.
  destruct store as [store|]; [|apply extends_raise].
  apply extends_same_trace. intros w.
  by destruct (add_pending _ _ _ _ _ _) as [e|[id b]].
Qed.

Lemma extends_attempt_once url payload sync_id start_time :
  extends_trace (attempt_once env url payload sync_id start_time).
Proof.
  unfold attempt_once.
  apply extends_bind; [apply extends_post|]. intros [status text|msg];
    [|apply extends_ret].
  destruct (status =? 200); [|apply extends_ret].
  apply extends_bind; [apply extends_now|]. intros t.
  apply extends_bind.
  { destruct (Py.truthy sync_id);
      [apply extends_buffer_mark_synced|apply extends_ret]. }
  intros _. apply extends_bind; [apply extends_now|]. intros t'.
  apply extends_bind; [by apply extends_same_trace|]. intros _.
  apply extends_ret.
Qed.

Lemma extends_push_attempts url payload sync_id start_time max_retries base_delay
    attempts error_msg :
  extends_trace (push_attempts env url payload sync_id start_time max_retries
                   base_delay attempts error_msg).
Proof.
  revert error_msg.
  induction attempts as [|a attempts IH]; intros error_msg; simpl;
    [apply extends_ret|].
  apply extends_bind; [apply extends_attempt_once|]. intros [result|msg];
    [apply extends_ret|].
  apply extends_bind; [|intros _; apply IH].
  destruct (a <? max_retries); [apply extends_sleep|apply extends_ret].
Qed.

Lemma extends_push_to_api payload sync_id :
  extends_trace (push_to_api cfg env payload sync_id).
Proof.
  unfold push_to_api.
  apply extends_bind; [apply extends_now|]. intros t.
  apply extends_bind; [apply extends_push_attempts|]. intros [result|error_msg];
    [apply extends_ret|].
  apply extends_bind; [by apply extends_same_trace|]. intros _.
  apply extends_bind; [|intros _; apply extends_ret].
  destruct (Py.truthy sync_id); [|apply extends_ret].
  destruct error_msg; [apply extends_buffer_mark_failed|apply extends_raise].
Qed.

Lemma extends_deliver_chunks n_chunks chunks success_count failed_count :
  extends_trace (deliver_chunks cfg env n_chunks chunks success_count failed_count).
Proof.
  revert success_count failed_count.
  induction chunks as [|[idx [chunk_data chunk_count]] chunks IH];
    intros success_count failed_count; simpl; [apply extends_ret|].
  apply extends_bind; [apply extends_now|]. intros t.
  apply extends_bind; [apply extends_push_to_api|]. intros [|]; [apply IH|].
  apply extends_bind; [apply extends_buffer_add_pending|]. intros _. apply IH.
Qed.

(** Phases 2 and 3 start with the extraction: whatever follows, the first
    event they add to the trace is the extraction, and exactly one
    extraction is made. *)
Lemma run_extraction_job_after_sync w w1 :
  sync_pending cfg env w = Ok tt w1 →
  ∃ more,
    trace (res_world (run_extraction_job cfg env w)) = trace w1 ++ EvExtract :: more.
Proof.
  intros Hsync. unfold run_extraction_job. unfold bind at 1. rewrite Hsync.
  unfold bind at 1. unfold extract_data at 1.
  set (r := match extract_all_data env (extractions w1) with
            | Extracted (Some data) => _
            | _ => _
            end).
  clearbody r. destruct r as [data record_count].
  assert (Hk : extends_trace
    (match data with
     | Some data0 =>
         if record_count =? 0 then ret tt
         else match _chunk_data data0 5000 with
              | inl e => raise e
              | inr chunks =>
                  bind (deliver_chunks cfg env (Py.len chunks) (enumerate chunks) 0 0)
                       (λ _, ret tt)
              end
     | None => ret tt
     end)).
  { destruct data as [data0|]; [|apply extends_ret].
    destruct (record_count =? 0); [apply extends_ret|].
    destruct (_chunk_data data0 5000) as [e|chunks]; [apply extends_raise|].
    apply extends_bind; [apply extends_deliver_chunks|]. intros _. apply extends_ret. }
  destruct (Hk (extracted w1)) as (more & Hmore).
  exists more. rewrite Hmore. simpl. by rewrite <- app_assoc.
Qed.

End Trace.

Section Redelivery.
Context {record : Type} `{JsonCodec (Payload record)}.
Variable cfg : Config.
Variable env : Env record.
Implicit Types (w : World record) (item : Batch (Payload record)).

Lemma sync_pending_loop_skip item rest w :
  10 ≤ b_retry_count item →
  sync_pending_loop cfg env (item :: rest) w = sync_pending_loop cfg env rest w.
Proof.
  intros Hmany. simpl. by destruct (Z.leb_spec 10 (b_retry_count item)); [|lia].
Qed.

Lemma sync_pending_loop_skip_all skipped rest w :
  Forall (λ i, 10 ≤ b_retry_count i) skipped →
  sync_pending_loop cfg env (skipped ++ rest) w = sync_pending_loop cfg env rest w.
Proof.
  induction 1 as [|i skipped Hi _ IH]; [done|].
  rewrite <- app_comm_cons. by rewrite sync_pending_loop_skip.
Qed.

Lemma sync_pending_loop_failure item rest w w' :
  b_retry_count item < 10 →
  push_to_api cfg env (b_payload item) (Some (b_id item)) w = Ok false w' →
  sync_pending_loop cfg env (item :: rest) w = Ok tt w'.
Proof.
  intros Hfew Hpush. simpl.
  destruct (Z.leb_spec 10 (b_retry_count item)); [lia|].
  unfold bind. by rewrite Hpush.
Qed.

Lemma sync_pending_fetched pending w :
  get_pending (buffer w) 5 = inr pending →
  sync_pending cfg env w = sync_pending_loop cfg env pending w.
Proof.
  intros Hget. unfold sync_pending, bind, buffer_get_pending. rewrite Hget.
  by destruct pending.
Qed.

Lemma mark_synced_other_rows (buf buf' : SyncBuffer) (id id' now : string)
    (duration : Z) :
  mark_synced buf id now duration = inr buf' →
  id' ≠ id →
  rows_of id' buf' = rows_of id' buf.
Proof.
  unfold mark_synced. intros Hm Hne.
  destruct (fetch_pending buf id); [|by injection Hm as <-].
  destruct (existsb _ _); [done|]. injection Hm as <-.
  unfold rows_of. simpl. rewrite list_filter_filter. apply list_filter_iff.
  intros r. rewrite has_id_true, has_id_false. split; [tauto|].
  intros Hr. split; [done|congruence].
Qed.

Lemma mark_failed_other_rows (buf : SyncBuffer) (id id' error : string) :
  id' ≠ id → rows_of id' (mark_failed buf id error) = rows_of id' buf.
Proof.
  intros Hne. unfold rows_of, mark_failed. simpl. rewrite rows_of_bump.
  induction (pending_sync buf) as [|r rows IH]; [done|].
  destruct (Sql.has_id id' r) eqn:Hr.
  - rewrite filter_cons_True by done. simpl. rewrite IH. f_equal.
    apply bump_retry_other. apply has_id_true in Hr. congruence.
  - by rewrite filter_cons_False by congruence.
Qed.

(** A call of [push_to_api] for one batch leaves the rows of every other id
    as they were, however it ends. *)
Lemma push_to_api_other_rows payload (id id' : string) w :
  id' ≠ id →
  rows_of id' (buffer (res_world (push_to_api cfg env payload (Some id) w)))
    = rows_of id' (buffer w).
Proof.
  intros Hne.
  pose proof (push_to_api_inv cfg env payload (Some id) w) as Hinv.
  destruct (push_to_api cfg env payload (Some id) w) as [[|] w'|e w']; simpl.
  - destruct Hinv as (Hd & _). unfold delivered in Hd.
    destruct (Py.truthy (Some id)); [|by rewrite Hd].
    destruct Hd as (now & duration & Hm). simpl in Hm.
    by apply (mark_synced_other_rows _ _ id id' now duration).
  - destruct Hinv as (error & _ & ->).
    pose proof (failed_push_world_frame cfg payload (Some id) error w) as (Hb & _).
    rewrite Hb. destruct (Py.truthy (Some id)); [|done].
    by apply mark_failed_other_rows.
  - destruct Hinv as (Hb & _). by rewrite Hb.
Qed.

(** The events of one call of [push_to_api] are calls with its payload, and
    pauses. *)
Lemma push_to_api_posts payload sync_id w :
  ∃ new,
    trace (res_world (push_to_api cfg env payload sync_id w)) = trace w ++ new ∧
    Forall (λ p, p = (central_server_url cfg, payload)) (posts_of new).
Proof.
  assert (Hattempt : ∀ start_time w0, ∃ new,
    trace (res_world (attempt_once env (central_server_url cfg) payload sync_id
                        start_time w0)) = trace w0 ++ new ∧
    Forall (λ p, p = (central_server_url cfg, payload)) (posts_of new)).
  { intros start_time w0.
    destruct (is_success (requests_post env (posts w0))) eqn:Hs.
    - pose proof (attempt_once_success env (central_server_url cfg) payload sync_id
                    start_time w0 Hs) as Ha.
      destruct (attempt_once _ _ _ _ _ _) as [r w1|e w1]; simpl.
      + destruct Ha as (_ & _ & _ & Ht & _). eexists. split; [exact Ht|].
        by constructor.
      + destruct Ha as (_ & _ & _ & Ht & _). eexists. split; [exact Ht|].
        by constructor.
    - rewrite attempt_once_failure by done. simpl. eexists. split; [done|].
      by constructor. }
  assert (Hloop : ∀ start_time max_retries base_delay attempts error_msg w0, ∃ new,
    trace (res_world (push_attempts env (central_server_url cfg) payload sync_id
                        start_time max_retries base_delay attempts error_msg w0))
      = trace w0 ++ new ∧
    Forall (λ p, p = (central_server_url cfg, payload)) (posts_of new)).
  { intros start_time max_retries base_delay attempts.
    induction attempts as [|a attempts IH]; intros error_msg w0.
    - exists []. simpl. by rewrite app_nil_r.
    - simpl. unfold bind at 1.
      destruct (Hattempt start_time w0) as (n1 & Ht1 & Hp1).
      destruct (attempt_once _ _ _ _ _ _) as [[result|msg] w1|e w1]; simpl in *;
        [by exists n1| |by exists n1].
      unfold bind at 1.
      pose proof (extends_sleep env (base_delay * 2 ^ (a - 1)) w1) as (n2 & Ht2).
      assert (Hpause : ∃ n2,
        trace (res_world
                 ((if a <? max_retries
                   then sleep env (base_delay * 2 ^ (a - 1)) else ret tt) w1))
          = trace w1 ++ n2 ∧ posts_of n2 = []).
      { destruct (a <? max_retries).
        - unfold sleep. destruct (_ <? 0); [exists []; simpl; by rewrite app_nil_r|].
          destruct (sleep_max env <? _); [exists []; simpl; by rewrite app_nil_r|].
          by exists [EvSleep (base_delay * 2 ^ (a - 1))].
        - exists []. simpl. by rewrite app_nil_r. }
      clear n2 Ht2. destruct Hpause as (n2 & Ht2 & Hp2).
      destruct ((if a <? max_retries
                 then sleep env (base_delay * 2 ^ (a - 1)) else ret tt) w1)
        as [[] w2|e w2]; simpl in *.
      + destruct (IH (Some msg) w2) as (n3 & Ht3 & Hp3).
        exists (n1 ++ n2 ++ n3). split.
        * by rewrite Ht3, Ht2, Ht1, <- !app_assoc.
        * rewrite !posts_of_app, Hp2. simpl. by apply Forall_app.
      + exists (n1 ++ n2). split.
        * by rewrite Ht2, Ht1, <- !app_assoc.
        * rewrite !posts_of_app, Hp2. by rewrite app_nil_r.
  }
  unfold push_to_api. unfold bind at 1. unfold now at 1. unfold bind at 1.
  match goal with
  | |- context [push_attempts env ?u ?p ?s ?st ?m ?b ?l ?e ?w0] =>
      destruct (Hloop st m b l e w0) as (new & Ht & Hp);
      destruct (push_attempts env u p s st m b l e w0) as [[result|em] w1|e1 w1]
  end; simpl in *.
  - by exists new.
  - exists new. split; [|done]. unfold bind. simpl.
    destruct (Py.truthy sync_id); simpl; [|done].
    by destruct em.
  - by exists new.
Qed.

Lemma NoDup_same_image {A B} (f : A → B) (l : list A) (x y : A) :
  NoDup (map f l) → x ∈ l → y ∈ l → f x = f y → x = y.
Proof.
  induction l as [|a l IH]; intros Hdup Hx Hy Hxy.
  - by apply not_elem_of_nil in Hx.
  - simpl in Hdup. apply NoDup_cons in Hdup as (Ha & Hdup).
    apply elem_of_cons in Hx as [->|Hx]; apply elem_of_cons in Hy as [->|Hy].
    + done.
    + exfalso. apply Ha. rewrite Hxy. by apply list_elem_of_fmap_2.
    + exfalso. apply Ha. rewrite <- Hxy. by apply list_elem_of_fmap_2.
    + by apply IH.
Qed.

Lemma passed_other_rows before w w1 (id' : string) :
  passed cfg env before w w1 →
  (∀ i, i ∈ before → b_retry_count i < 10 → b_id i ≠ id') →
  rows_of id' (buffer w1) = rows_of id' (buffer w).
Proof.
  induction 1 as [w|item rest w w' Hmany _ IH|item rest w w1 w' Hfew Hpush _ IH];
    intros Hother.
  - done.
  - apply IH. intros i Hi. apply Hother. by right.
  - rewrite IH by (intros i Hi; apply Hother; by right).
    pose proof (push_to_api_other_rows (b_payload item) (b_id item) id' w) as Hrows.
    rewrite Hpush in Hrows. apply Hrows.
    intros ->. apply (Hother item); [by left|done|done].
Qed.

Lemma passed_posts before w w1 :
  passed cfg env before w w1 →
  ∃ new, trace w1 = trace w ++ new ∧ Forall (post_for cfg before) (posts_of new).
Proof.
  induction 1 as [w|item rest w w' Hmany _ IH|item rest w w1 w' Hfew Hpush _ IH].
  - exists []. by rewrite app_nil_r.
  - destruct IH as (new & Ht & Hp). exists new. split; [done|].
    eapply Forall_impl; [exact Hp|]. intros p (i & Hi & Hfew & ->).
    exists i. split; [by right|done].
  - destruct IH as (new & Ht & Hp).
    destruct (push_to_api_posts (b_payload item) (Some (b_id item)) w)
      as (first & Ht1 & Hp1).
    rewrite Hpush in Ht1. simpl in Ht1.
    exists (first ++ new). split; [by rewrite Ht, Ht1, <- app_assoc|].
    rewrite posts_of_app. apply Forall_app. split.
    + eapply Forall_impl; [exact Hp1|]. intros p ->.
      exists item. split; [by left|done].
    + eapply Forall_impl; [exact Hp|]. intros p (i & Hi & Hfew' & ->).
      exists i. split; [by right|done].
Qed.

Lemma sync_pending_loop_passed before rest w w1 :
  passed cfg env before w w1 →
  sync_pending_loop cfg env (before ++ rest) w = sync_pending_loop cfg env rest w1.
Proof.
  induction 1 as [w|item more w w' Hmany _ IH|item more w w1 w' Hfew Hpush _ IH].
  - done.
  - rewrite <- app_comm_cons. by rewrite sync_pending_loop_skip.
  - rewrite <- app_comm_cons. simpl.
    destruct (Z.leb_spec 10 (b_retry_count item)); [lia|].
    unfold bind. by rewrite Hpush.
Qed.

End Redelivery.

(** *** Claims on the coordinator *)

(** C7.  In the loop of [sync_pending] over any fetched sequence, a batch
    whose retry count has reached 10 is passed over without any effect and
    the loop goes on with the next one.  When the delivery of a batch below
    the ceiling fails, after any number of batches that were passed over or
    delivered, the loop ends there: [mark_failed] has been applied to that
    batch (its retry count is one higher and its last error is set), the rows
    of the batches passed over and of the batches that come after it are as
    they were when the loop began, the history is as the deliveries before
    left it, every transport call of the loop was made for a batch below the
    ceiling that comes no later than the failing one, the last of them being
    the attempts for the failing batch, and [run_extraction_job] goes on to
    the extraction. *)
Theorem sync_pending_skips_and_stops_at_failure {record : Type}
    `{JsonCodec (Payload record)} (cfg : Config) (env : Env record)
    (before : list (Batch (Payload record))) (item : Batch (Payload record))
    (rest : list (Batch (Payload record))) (w w1 w' : World record) :
  NoDup (map b_id (before ++ item :: rest)) →
  passed cfg env before w w1 →
  b_retry_count item < 10 →
  b_id item ≠ "" →
  push_to_api cfg env (b_payload item) (Some (b_id item)) w1 = Ok false w' →
  (∀ i more w0,
     10 ≤ b_retry_count i →
     sync_pending_loop cfg env (i :: more) w0 = sync_pending_loop cfg env more w0) ∧
  sync_pending_loop cfg env (before ++ item :: rest) w = Ok tt w' ∧
  (∀ i, i ∈ before → 10 ≤ b_retry_count i →
     rows_of (b_id i) (buffer w') = rows_of (b_id i) (buffer w)) ∧
  (∃ error,
     pending_sync (buffer w') =
       map (bump_retry (b_id item) error) (pending_sync (buffer w1)) ∧
     rows_of (b_id item) (buffer w') =
       map (bump_retry (b_id item) error) (rows_of (b_id item) (buffer w)) ∧
     (∀ r, r ∈ rows_of (b_id item) (buffer w) →
        ∃ r', r' ∈ pending_sync (buffer w') ∧
              ps_id r' = ps_id r ∧
              ps_retry_count r' = ps_retry_count r + 1 ∧
              ps_last_error r' = Some error ∧
              ps_payload r' = ps_payload r ∧
              ps_created_at r' = ps_created_at r ∧
              ps_status r' = ps_status r)) ∧
  (∀ i, i ∈ rest →
     rows_of (b_id i) (buffer w') = rows_of (b_id i) (buffer w)) ∧
  sync_history (buffer w') = sync_history (buffer w1) ∧
  (∃ earlier new,
     trace w1 = trace w ++ earlier ∧
     Forall (post_for cfg before) (posts_of earlier) ∧
     trace w' = trace w1 ++ new ∧
     posts_of new =
       replicate (Z.to_nat (default 5 (retry_attempts cfg)))
                 (central_server_url cfg, b_payload item)) ∧
  uuids w' = uuids w1 ∧
  (get_pending (buffer w) 5 = inr (before ++ item :: rest) →
   sync_pending cfg env w = Ok tt w' ∧
   ∃ more,
     trace (res_world (run_extraction_job cfg env w)) = trace w' ++ EvExtract :: more).
Proof.
  intros Hids Hpassed Hfew Hid Hpush.
  assert (Hloop : sync_pending_loop cfg env (before ++ item :: rest) w = Ok tt w').
  { rewrite (sync_pending_loop_passed cfg env before _ w w1 Hpassed).
    by apply sync_pending_loop_failure. }
  assert (Htruthy : Py.truthy (Some (b_id item)) = true).
  { simpl. by apply negb_true_iff, String.eqb_neq. }
  pose proof (push_to_api_inv cfg env (b_payload item) (Some (b_id item)) w1) as Hinv.
  rewrite Hpush in Hinv. destruct Hinv as (error & _ & Hw').
  pose proof (failed_push_world_frame cfg (b_payload item) (Some (b_id item)) error w1)
    as (Hb & _ & _ & _ & Hu & _ & _ & Ht).
  rewrite <- Hw', Htruthy in Hb. rewrite <- Hw' in Hu, Ht. simpl in Hb.
  rewrite map_app in Hids. simpl in Hids.
  apply NoDup_app in Hids as (Hearlier & Hdisjoint & Hlater).
  apply NoDup_cons in Hlater as (Hitem & _).
  assert (Hbefore : ∀ i id', i ∈ before → id' ∈ b_id item :: map b_id rest →
                             b_id i ≠ id').
  { intros i id' Hi Hid' Heq. subst id'. apply (Hdisjoint (b_id i)); [|done].
    by apply list_elem_of_fmap_2. }
  assert (Hkept : ∀ id', id' ∈ b_id item :: map b_id rest →
                         rows_of id' (buffer w1) = rows_of id' (buffer w)).
  { intros id' Hid'. apply (passed_other_rows cfg env before w w1 id' Hpassed).
    intros i Hi _. by apply Hbefore. }
  assert (Hown : rows_of (b_id item) (buffer w') =
                 map (bump_retry (b_id item) error) (rows_of (b_id item) (buffer w))).
  { rewrite Hb. unfold rows_of at 1. simpl. rewrite rows_of_bump.
    fold (rows_of (b_id item) (buffer w1)). rewrite Hkept; [done|by left]. }
  split; [intros; by apply sync_pending_loop_skip|].
  split; [done|].
  split; [|split; [|split; [|split; [by rewrite Hb|split; [|split; [done|]]]]]].
  - intros i Hi Hmany.
    assert (Hne : b_id i ≠ b_id item) by (apply Hbefore; [done|by left]).
    rewrite Hb. rewrite mark_failed_other_rows by done.
    apply (passed_other_rows cfg env before w w1 (b_id i) Hpassed).
    intros j Hj Hjfew Heq.
    assert (j = i) as -> by by apply (NoDup_same_image b_id before).
    lia.
  - exists error. split; [by rewrite Hb|]. split; [exact Hown|].
    intros r Hr. exists (bump_retry (b_id item) error r).
    assert (Hrid : ps_id r = b_id item).
    { apply list_elem_of_filter in Hr as [Hr _]. by apply has_id_true in Hr. }
    split.
    + assert (Hin : bump_retry (b_id item) error r ∈ rows_of (b_id item) (buffer w')).
      { rewrite Hown. by apply list_elem_of_fmap_2. }
      by apply list_elem_of_filter in Hin as [_ Hin].
    + unfold bump_retry.
      by assert (Sql.has_id (b_id item) r = true) as -> by by apply has_id_true.
  - intros i Hi.
    assert (Hne : b_id i ≠ b_id item).
    { intros Heq. apply Hitem. rewrite <- Heq. by apply list_elem_of_fmap_2. }
    rewrite Hb. rewrite mark_failed_other_rows by done.
    apply Hkept. right. by apply list_elem_of_fmap_2.
  - destruct (passed_posts cfg env before w w1 Hpassed) as (earlier & Hte & Hpe).
    exists earlier. eexists. split; [exact Hte|]. split; [exact Hpe|].
    split; [exact Ht|]. by rewrite posts_of_attempts, length_seqZ.
  - intros Hget.
    assert (Hsync : sync_pending cfg env w = Ok tt w')
      by by rewrite (sync_pending_fetched cfg env _ w Hget).
    split; [done|]. by apply run_extraction_job_after_sync.
Qed.

(** C9. When the extraction of a cycle returns no data, or data with zero
    records in total, [run_extraction_job] ends with the extraction: after
    the redelivery phase it makes no transport call, draws no id and writes
    nothing to the buffer, and the only event it adds is the extraction
    itself; with nothing pending, the whole cycle makes no transport call. *)
Theorem run_extraction_job_nothing_extracted {record : Type}
    `{JsonCodec (Payload record)} (cfg : Config) (env : Env record)
    (w w1 w2 : World record) (data : option (gmap string (list record)))
    (record_count : Z) :
  sync_pending cfg env w = Ok tt w1 →
  extract_data env w1 = Ok (data, record_count) w2 →
  data = None ∨ record_count = 0 →
  run_extraction_job cfg env w = Ok tt w2 ∧
  buffer w2 = buffer w1 ∧
  posts w2 = posts w1 ∧
  uuids w2 = uuids w1 ∧
  trace w2 = trace w1 ++ [EvExtract] ∧
  (get_pending (buffer w) 5 = inr [] →
   buffer w2 = buffer w ∧ posts w2 = posts w ∧ trace w2 = trace w ++ [EvExtract]).
Proof.
  intros Hsync Hextract Hnothing.
  assert (Hw2 : w2 = extracted w1).
  { unfold extract_data in Hextract. by injection Hextract. }
  split.
  - unfold run_extraction_job. unfold bind at 1. rewrite Hsync.
    unfold bind at 1. rewrite Hextract.
    destruct data as [d|]; [|done].
    destruct Hnothing as [Hnone | ->]; done.
  - subst w2. simpl. do 4 (split; [done|]).
    intros Hget. rewrite (sync_pending_fetched cfg env _ w Hget) in Hsync.
    simpl in Hsync. by injection Hsync as <-.
Qed.

(** * The statements at sample inputs *)

Lemma chunk_data_small_is_single_chunk_witness :
  ∃ n, _chunk_data Sample.extraction 5000 = inr [(Sample.extraction, n)].
Proof.
  destruct (chunk_data_small_is_single_chunk Sample.extraction 5000) as (n & Hn & _).
  - vm_compute. discriminate.
  - by exists n.
Defined.

Lemma add_pending_then_mark_synced_witness :
  ∃ buf1 buf2,
    @add_pending Json.PyVal pyval_codec (Sample.buffer_of Sample.json_rows)
      "dddd" "2024-05-01T10:00:00" "store-1" Sample.json_payload 7
      = inr ("dddd", buf1) ∧
    mark_synced buf1 "dddd" "2024-05-01T10:05:00" 12 = inr buf2 ∧
    pending_sync buf2 = Sample.json_rows ∧
    map sh_record_count (sync_history buf2) = [7].
Proof.
  destruct (@add_pending_then_mark_synced Json.PyVal pyval_codec
              (Sample.buffer_of Sample.json_rows) "dddd" "2024-05-01T10:00:00"
              "2024-05-01T10:05:00" "store-1" Sample.json_payload 7 12)
    as (buf1 & buf2 & H1 & H2 & H3 & H4 & _).
  - compute_done.
  - compute_done.
  - exists buf1, buf2. rewrite H4. done.
Defined.

Lemma mark_unknown_id_is_noop_witness :
  mark_synced (Sample.buffer_of Sample.three_rows) "zzzz" "2024-05-01T10:05:00" 12
    = inr (Sample.buffer_of Sample.three_rows) ∧
  mark_failed (Sample.buffer_of Sample.three_rows) "zzzz" "connection refused"
    = Sample.buffer_of Sample.three_rows.
Proof.
  destruct (mark_unknown_id_is_noop (Sample.buffer_of Sample.three_rows) "zzzz")
    as (Hsynced & Hfailed & _).
  - compute_done.
  - split; [apply Hsynced|apply Hfailed].
Defined.

Lemma sample_texts_are_json :
  Forall (λ r, is_Some (Json.loads (ps_payload r))) Sample.json_rows.
Proof.
  repeat (constructor; [eexists; vm_compute; reflexivity|]). constructor.
Qed.



Lemma push_to_api_buffer_effect_witness :
  buffer (res_world
            (push_to_api Sample.config Sample.env_accepting Sample.payload None
               (Sample.world_of Sample.three_rows)))
    = buffer (Sample.world_of Sample.three_rows).
Proof.
  destruct (push_to_api_buffer_effect Sample.config Sample.env_accepting
              Sample.payload None (Sample.world_of Sample.three_rows))
    as (Hframe & _).
  - reflexivity.
  - exact Hframe.
Defined.


Lemma sync_pending_skips_and_stops_at_failure_witness :
  let w := Sample.world_of Sample.four_rows in
  let w1 := res_world (push_to_api Sample.config Sample.env_first_only
                         Sample.payload (Some "bbbb") w) in
  let w' := res_world (push_to_api Sample.config Sample.env_first_only
                         Sample.payload (Some "cccc") w1) in
  @sync_pending nat Sample.codec Sample.config Sample.env_first_only w = Ok tt w' ∧
  (∀ i, i ∈ [Sample.batch "dddd" 0] →
        rows_of (b_id i) (buffer w') = rows_of (b_id i) (buffer w)) ∧
  ∃ more,
    trace (res_world (@run_extraction_job nat Sample.codec Sample.config
                        Sample.env_first_only w))
      = trace w' ++ EvExtract :: more.
Proof.
  intros w w1 w'.
  destruct (@sync_pending_skips_and_stops_at_failure nat Sample.codec
              Sample.config Sample.env_first_only
              [Sample.batch "aaaa" 10; Sample.batch "bbbb" 2]
              (Sample.batch "cccc" 0) [Sample.batch "dddd" 0] w w1 w')
    as (_ & _ & _ & _ & Hrest & _ & _ & _ & Hrun).
  - compute_done.
  - apply passed_over; [simpl; lia|].
    apply (passed_delivered _ _ _ _ _ w1 w1); [simpl; lia| |apply passed_none].
    vm_compute. reflexivity.
  - simpl. lia.
  - discriminate.
  - vm_compute. reflexivity.
  - destruct Hrun as (Hsync & Hextract); [vm_compute; reflexivity|].
    split; [exact Hsync|]. split; [exact Hrest|exact Hextract].
Defined.

Lemma run_extraction_job_nothing_extracted_witness :
  let w := Sample.world_of [] in
  @run_extraction_job nat Sample.codec Sample.config Sample.env_refused w
    = Ok tt (extracted w) ∧
  posts (extracted w) = posts w ∧
  buffer (extracted w) = buffer w.
Proof.
  intros w.
  destruct (@run_extraction_job_nothing_extracted nat Sample.codec Sample.config
              Sample.env_refused w w (extracted w) None 0)
    as (Hrun & _ & _ & _ & _ & Hidle).
  - reflexivity.
  - reflexivity.
  - by left.
  - split; [exact Hrun|]. destruct Hidle as (Hb & Hp & _); [reflexivity|].
    split; [exact Hp|exact Hb].
Defined.

(** * Where the code departs from the specification *)

(** C2 as the specification words it fails: called with the id of a pending
    batch, [push_to_api] empties the pending table and writes the history
    when the delivery succeeds, and raises the retry count of the batch when
    all attempts fail. *)
Lemma push_to_api_writes_the_buffer :
  let w := Sample.world_of [Sample.row "bbbb" "2024-04-30T09:00:00" 2] in
  (∃ w', push_to_api Sample.config Sample.env_accepting Sample.payload
           (Some "bbbb") w = Ok true w' ∧
         pending_sync (buffer w') = [] ∧
         map sh_id (sync_history (buffer w')) = ["bbbb"] ∧
         buffer w' ≠ buffer w) ∧
  (∃ w', push_to_api Sample.config Sample.env_refused Sample.payload
           (Some "bbbb") w = Ok false w' ∧
         map ps_retry_count (pending_sync (buffer w')) = [3] ∧
         map ps_last_error (pending_sync (buffer w')) = [Some "connection refused"] ∧
         buffer w' ≠ buffer w).
Proof.
  intros w. split.
  - eexists. split; [vm_compute; reflexivity|].
    split; [reflexivity|]. split; [reflexivity|].
    intros Heq. apply (f_equal (λ b, length (pending_sync b))) in Heq.
    vm_compute in Heq. discriminate.
  - eexists. split; [vm_compute; reflexivity|].
    split; [reflexivity|]. split; [reflexivity|].
    intros Heq. apply (f_equal (λ b, map ps_retry_count (pending_sync b))) in Heq.
    vm_compute in Heq. discriminate.
Qed.



